(** * An LRU cache with expiring entries and eviction callbacks

    A shallow embedding of [lru/lru.go] and the properties of its
    operations.

    The Go program keeps a [container/list] of elements (front = most
    recently used) and a map from keys to the elements of that list.  Both
    hold pointers to the same elements, and [add] writes through such a
    pointer, so the model keeps the elements in a store ([mem]) and lets the
    list and the map hold addresses into it.

    Every locking method takes [c.lock] on entry and releases it in a
    deferred call.  [sync.RWMutex] is not reentrant: a goroutine that calls
    [Lock] on a mutex it already holds is parked for ever.  The model keeps
    the state of the mutex and gives such a call the outcome [Block].

    Eviction callbacks are Go closures.  An entry stores a pointer to one
    ([*func]); the model stores an address [fptr] and takes the behaviour of
    the closures as a parameter [run] of the development: an arbitrary
    function of the cache it runs against, which may return, block or
    panic.  The engine's own calls are recorded in a log.

    Every operation that reads the clock takes its reading [now], the value
    of [time.Now().UnixNano()], as an argument.  [DeleteExpired] also takes
    the order in which the runtime walks the map, and the value of
    [rand.Intn] is a parameter [Intn] of the development.

    [New] also starts the goroutine of the watchdog, which calls
    [DeleteExpired] at every tick.  Goroutines are outside this model: it
    follows the calls of one caller. *)

From stdpp Require Import gmap strings list fin_maps.
From Stdlib Require Import ZArith Lia.

Abbreviation eptr := nat (only parsing).
Abbreviation fptr := nat (only parsing).

(** [int64] results: the value of [UnixNano] wraps around. *)
Definition wrap64 (z : Z) : Z := ((z + 2 ^ 63) mod 2 ^ 64 - 2 ^ 63)%Z.

(** [time.Now().Add(d).UnixNano()] when the clock reads [now]. *)
Definition expiry (now d : Z) : Z := wrap64 (now + d).

Section Lru.

Context {Key : Type} `{Countable Key} {Value : Type}.

(** The zero value of [interface{}], what a bare [return] yields. *)
Variable zero : Value.

(** ** Data *)

Record entry := Entry {
  key : Key;
  value : Value;
  Expiration : Z;
  OnEvicted : option fptr
}.

(** The fields of [Cache] that hold data, with the store of the elements
    the list and the map point to.  [dl] and [cache] are [None] when the Go
    field is [nil].  An element is never freed: [removeElement] reads it
    after unlinking it. *)
Record Cache := mkCache {
  MaxEntries : Z;
  dl : option (list eptr);
  cache : option (gmap Key eptr);
  mem : list entry
}.

Definition set_dl (l : option (list eptr)) (c : Cache) : Cache :=
  mkCache (MaxEntries c) l (cache c) (mem c).

Definition set_cache (m : option (gmap Key eptr)) (c : Cache) : Cache :=
  mkCache (MaxEntries c) (dl c) m (mem c).

Definition set_mem (h : list entry) (c : Cache) : Cache :=
  mkCache (MaxEntries c) (dl c) (cache c) h.

(** What the engine did, most recent first: an element examined by the
    sweep, an element handed to [removeElement], a callback invoked. *)
Inductive event :=
  | Visited (e : eptr)
  | Removed (e : eptr) (kv : entry)
  | Fired (f : fptr) (k : Key) (v : Value).

(** The cache, its mutex and the log. *)
Record world := World {
  obj : Cache;
  lock : bool;
  log : list event
}.

(** ** Callbacks and the random source *)

Inductive reply :=
  | Returns (c : Cache)
  | Blocks (c : Cache)
  | Panics (c : Cache).

(** [run f k v c]: what the closure at [f] does when called with [(k, v)]
    while the cache is [c]. *)
Variable run : fptr -> Key -> Value -> Cache -> reply.

(** [Intn seed n]: the value of [rand.Intn(n)] right after
    [rand.Seed(seed)]. *)
Variable Intn : Z -> Z -> Z.

(** ** Outcomes *)

Inductive outcome (A : Type) :=
  | Ret (a : A) (w : world)
  | Block (w : world)
  | Panic (w : world).
Arguments Ret {A} a w.
Arguments Block {A} w.
Arguments Panic {A} w.

Definition M (A : Type) : Type := world -> outcome A.

Definition ret {A} (a : A) : M A := fun w => Ret a w.

Definition bind {A B} (m : M A) (k : A -> M B) : M B := fun w =>
  match m w with
  | Ret a w' => k a w'
  | Block w' => Block w'
  | Panic w' => Panic w'
  end.

Notation "x <- m ;; k" := (bind m (fun x => k))
  (at level 100, m at next level, right associativity).
Notation "m ;;; k" := (bind m (fun _ => k))
  (at level 100, right associativity).

Definition panic {A} : M A := fun w => Panic w.

Definition get_obj : M Cache := fun w => Ret (obj w) w.

Definition put_obj (c : Cache) : M unit := fun w =>
  Ret tt (World c (lock w) (log w)).

Definition emit (ev : event) : M unit := fun w =>
  Ret tt (World (obj w) (lock w) (ev :: log w)).

(** [e.Value] as a pointer to its entry. *)
Definition deref (e : eptr) : M entry := fun w =>
  match mem (obj w) !! e with
  | Some kv => Ret kv w
  | None => Panic w
  end.

(** [onEvicted(k, v)]. *)
Definition call (f : fptr) (k : Key) (v : Value) : M unit := fun w =>
  match run f k v (obj w) with
  | Returns c => Ret tt (World c (lock w) (log w))
  | Blocks c => Block (World c (lock w) (log w))
  | Panics c => Panic (World c (lock w) (log w))
  end.

(** [c.lock.Lock(); defer c.lock.Unlock()] around [body]: the deferred
    unlock runs when [body] returns or panics, and never when it blocks. *)
Definition locked {A} (body : M A) : M A := fun w =>
  if lock w then Block w
  else match body (World (obj w) true (log w)) with
       | Ret a w' => Ret a (World (obj w') false (log w'))
       | Block w' => Block w'
       | Panic w' => Panic (World (obj w') false (log w'))
       end.

(** ** [container/list] and the map *)

Definition unlink (e : eptr) (L : list eptr) : list eptr :=
  filter (fun x => x ≠ e) L.

(** [l.Remove(e)]: nothing happens unless [e] is an element of [l]. *)
Definition list_Remove (e : eptr) (l : option (list eptr)) : option (list eptr) :=
  unlink e <$> l.

(** [l.MoveToFront(e)]: nothing happens unless [e] is an element of [l]. *)
Definition list_MoveToFront (e : eptr) (l : option (list eptr)) : option (list eptr) :=
  (fun L => if decide (e ∈ L) then e :: unlink e L else L) <$> l.

(** [m[k]] read: a nil map has no keys. *)
Definition index (m : option (gmap Key eptr)) (k : Key) : option eptr :=
  m ≫= (fun g => g !! k).

(** [delete(m, k)]: no effect on a nil map. *)
Definition map_delete (k : Key) (m : option (gmap Key eptr)) : option (gmap Key eptr) :=
  delete k <$> m.

(** [c.dl.MoveToFront(e)]. *)
Definition MoveToFront (e : eptr) : M unit :=
  c <- get_obj ;; put_obj (set_dl (list_MoveToFront e (dl c)) c).

(** [c.dl.PushFront(&entry{...})]: a new element; a nil list panics. *)
Definition PushFront (kv : entry) : M eptr :=
  c <- get_obj ;;
  match dl c with
  | None => panic
  | Some L =>
      let e := length (mem c) in
      put_obj (set_dl (Some (e :: L)) (set_mem (mem c ++ [kv]) c)) ;;;
      ret e
  end.

(** [c.cache[k] = e]: assignment to a nil map panics. *)
Definition map_store (k : Key) (e : eptr) : M unit :=
  c <- get_obj ;;
  match cache c with
  | None => panic
  | Some g => put_obj (set_cache (Some (<[k := e]> g)) c)
  end.

(** [c.dl.Len()] and [c.dl.Back()]: both read [l.len] and panic on nil. *)
Definition dl_Len : M Z :=
  c <- get_obj ;;
  match dl c with
  | None => panic
  | Some L => ret (Z.of_nat (length L))
  end.

Definition dl_Back : M (option eptr) :=
  c <- get_obj ;;
  match dl c with
  | None => panic
  | Some L => ret (last L)
  end.

(** ** The operations *)

Definition Expired (now : Z) (e : entry) : bool :=
  if (Expiration e =? 0)%Z then false else (Expiration e <? now)%Z.

(** [var e int64; if d > 0 { e = time.Now().Add(d).UnixNano() }]. *)
Definition deadline (now d : Z) : Z :=
  if (0 <? d)%Z then expiry now d else 0%Z.

Definition New (maxEntries : Z) : world :=
  World (mkCache maxEntries (Some []) (Some ∅) []) false [].

Definition removeElement (e : eptr) : M unit :=
  c <- get_obj ;;
  put_obj (set_dl (list_Remove e (dl c)) c) ;;;
  kv <- deref e ;;
  c <- get_obj ;;
  put_obj (set_cache (map_delete (key kv) (cache c)) c) ;;;
  emit (Removed e kv) ;;;
  match OnEvicted kv with
  | Some f => emit (Fired f (key kv) (value kv)) ;;; call f (key kv) (value kv)
  | None => ret tt
  end.

Definition RemoveOldest : M unit :=
  c <- get_obj ;;
  match cache c with
  | None => ret tt
  | Some _ =>
      locked (
        ele <- dl_Back ;;
        match ele with
        | Some e => removeElement e
        | None => ret tt
        end)
  end.

Definition add (now : Z) (k : Key) (v : Value) (d : Z) (onEvicted : option fptr) : M unit :=
  locked (
    c <- get_obj ;;
    match cache c with
    | None => put_obj (set_dl (Some []) (set_cache (Some ∅) c))
    | Some _ => ret tt
    end ;;;
    let e := deadline now d in
    c <- get_obj ;;
    match index (cache c) k with
    | Some ee =>
        MoveToFront ee ;;;
        item <- deref ee ;;
        c <- get_obj ;;
        put_obj (set_mem (<[ee := Entry (key item) v e (OnEvicted item)]> (mem c)) c)
    | None =>
        ele <- PushFront (Entry k v e onEvicted) ;;
        map_store k ele ;;;
        c <- get_obj ;;
        if (MaxEntries c =? 0)%Z then ret tt
        else
          n <- dl_Len ;;
          if (MaxEntries c <? n)%Z then RemoveOldest else ret tt
    end).

Definition Add (k : Key) (v : Value) : M unit :=
  add 0 k v (-1) None.

Definition AddEx (now : Z) (k : Key) (v : Value) (d : Z) : M unit :=
  add now k v d None.

Definition AddExWithOnEvicted (now : Z) (k : Key) (v : Value) (d : Z)
    (onEvicted : option fptr) : M unit :=
  add now k v d onEvicted.

Definition Get (now : Z) (k : Key) : M (Value * bool) :=
  c <- get_obj ;;
  match cache c with
  | None => ret (zero, false)
  | Some _ =>
      locked (
        c <- get_obj ;;
        match index (cache c) k with
        | Some ele =>
            v <- deref ele ;;
            if Expired now v then
              removeElement ele ;;;
              c <- get_obj ;;
              match index (cache c) k with
              | Some ele' => v' <- deref ele' ;; ret (value v', true)
              | None => ret (zero, false)
              end
            else
              MoveToFront ele ;;;
              ret (value v, true)
        | None => ret (zero, false)
        end)
  end.

Definition Remove (k : Key) : M unit :=
  c <- get_obj ;;
  match cache c with
  | None => ret tt
  | Some _ =>
      locked (
        c <- get_obj ;;
        match index (cache c) k with
        | Some ele => removeElement ele
        | None => ret tt
        end)
  end.

Definition Len : M Z :=
  c <- get_obj ;;
  match cache c with
  | None => ret 0%Z
  | Some _ => dl_Len
  end.

Definition Clear : M unit :=
  c <- get_obj ;;
  put_obj (set_dl None c) ;;;
  c <- get_obj ;;
  put_obj (set_cache None c).

(** The map a [range] loop walks is the one [c.cache] held when the loop
    began.  While [c.cache] is not nil the loop sees its current content;
    once a callback has set it to nil ([Clear]) the loop goes on over the
    content the map had then. *)
Definition iterated (it : gmap Key eptr) (c : Cache) : gmap Key eptr :=
  match cache c with
  | Some g => g
  | None => it
  end.

(** The body of [for _, v := range c.cache].  [order] is the order in which
    the runtime walks the keys (in a run of the program, the keys of the map
    once each); a key that is no longer in the map when its turn comes is
    not produced. *)
Fixpoint sweep (now : Z) (order : list Key) (count : Z) (it : gmap Key eptr) : M unit :=
  match order with
  | [] => ret tt
  | k :: rest =>
      c <- get_obj ;;
      match iterated it c !! k with
      | None => sweep now rest count (iterated it c)
      | Some v =>
          if (count =? 0)%Z then ret tt
          else
            emit (Visited v) ;;;
            kv <- deref v ;;
            (if (0 <? Expiration kv)%Z && (Expiration kv <? now)%Z
             then removeElement v else ret tt) ;;;
            sweep now rest (count - 1) (iterated it c)
      end
  end.

Definition DeleteExpired (now : Z) (order : list Key) : M unit :=
  n <- Len ;;
  if (n =? 0)%Z then ret tt
  else
    locked (
      n <- Len ;;
      if (n <=? 0)%Z then panic
      else
        let count := (Intn now n + 1)%Z in
        c <- get_obj ;;
        sweep now order count (iterated ∅ c)).

(** ** What the properties are stated with *)

(** The world an operation leaves behind, whatever its outcome. *)
Definition world_of {A} (o : outcome A) : world :=
  match o with
  | Ret _ w => w
  | Block w => w
  | Panic w => w
  end.

(** The list and the map describe the same entries: both nil or both set,
    the list without repetition, every key of the map on an element of the
    list that carries that key, and every element of the list under its own
    key in the map. *)
Record consistent (c : Cache) : Prop := Consistent {
  cons_nil : dl c = None <-> cache c = None;
  cons_nodup : forall L, dl c = Some L -> NoDup L;
  cons_index : forall k e, index (cache c) k = Some e ->
    (exists L, dl c = Some L /\ e ∈ L) /\
    (exists kv, mem c !! e = Some kv /\ key kv = k);
  cons_list : forall L e, dl c = Some L -> e ∈ L ->
    exists kv, mem c !! e = Some kv /\ index (cache c) (key kv) = Some e
}.

(** The cache once [removeElement] has taken [e], which holds [kv], out of
    the list and the key of [kv] out of the map. *)
Definition detached (e : eptr) (kv : entry) (c : Cache) : Cache :=
  set_cache (map_delete (key kv) (cache c)) (set_dl (list_Remove e (dl c)) c).

(** A cache between two calls: nobody holds the mutex. *)
Definition idle (w : world) : Prop :=
  lock w = false /\ consistent (obj w).

(** The cache with an empty list and an empty map in place of its own. *)
Definition emptied (w : world) : world :=
  World (set_dl (Some []) (set_cache (Some ∅) (obj w))) (lock w) (log w).

(** The expiration test of the sweep. *)
Definition stale (now : Z) (kv : entry) : Prop :=
  (0 < Expiration kv)%Z /\ (Expiration kv < now)%Z.

Fixpoint visits (evs : list event) : nat :=
  match evs with
  | [] => 0
  | Visited _ :: evs => S (visits evs)
  | _ :: evs => visits evs
  end.

Fixpoint fired (evs : list event) : list (fptr * Key * Value) :=
  match evs with
  | [] => []
  | Fired f k v :: evs => (f, k, v) :: fired evs
  | _ :: evs => fired evs
  end.

Definition removal_of_stale (now : Z) (ev : event) : Prop :=
  match ev with
  | Removed _ kv => stale now kv
  | _ => True
  end.

(** What [removeElement] logs for the element [e] that holds [kv]. *)
Definition removal_events (e : eptr) (kv : entry) : list event :=
  match OnEvicted kv with
  | Some f => [Fired f (key kv) (value kv); Removed e kv]
  | None => [Removed e kv]
  end.

(** Callbacks that keep off the cache, as the contract of the package asks:
    they return and leave the cache as they found it. *)
Definition quiet : Prop :=
  forall f k v c, run f k v c = Returns c.

(** The cache holds no more entries than its capacity allows. *)
Definition within_capacity (c : Cache) : Prop :=
  forall L, dl c = Some L ->
    (0 < MaxEntries c)%Z -> (Z.of_nat (length L) <= MaxEntries c)%Z.

(** One step of an operation that adds no key: the cache is idle after it,
    its capacity and its stored entries are what they were, and every key of
    the map was there before, on the same element. *)
Definition shrinks (w w' : world) : Prop :=
  idle w' /\
  MaxEntries (obj w') = MaxEntries (obj w) /\
  mem (obj w') = mem (obj w) /\
  (forall k e, index (cache (obj w')) k = Some e ->
     index (cache (obj w)) k = Some e).

(** How many keys of a walk are in the map. *)
Definition pending (g : gmap Key eptr) (order : list Key) : nat :=
  length (filter (fun k => is_Some (g !! k)) order).

(** The calls of a user of the package, and a sequence of them. *)
Inductive request :=
  | CallAdd (k : Key) (v : Value)
  | CallAddEx (now : Z) (k : Key) (v : Value) (d : Z)
  | CallAddExWithOnEvicted (now : Z) (k : Key) (v : Value) (d : Z)
      (onEvicted : option fptr)
  | CallGet (now : Z) (k : Key)
  | CallRemove (k : Key)
  | CallRemoveOldest
  | CallDeleteExpired (now : Z) (order : list Key)
  | CallLen
  | CallClear.

Definition exec (r : request) : M unit :=
  match r with
  | CallAdd k v => Add k v
  | CallAddEx now k v d => AddEx now k v d
  | CallAddExWithOnEvicted now k v d cb => AddExWithOnEvicted now k v d cb
  | CallGet now k => Get now k ;;; ret tt
  | CallRemove k => Remove k
  | CallRemoveOldest => RemoveOldest
  | CallDeleteExpired now order => DeleteExpired now order
  | CallLen => Len ;;; ret tt
  | CallClear => Clear
  end.

Fixpoint exec_all (rs : list request) : M unit :=
  match rs with
  | [] => ret tt
  | r :: rs => exec r ;;; exec_all rs
  end.

End Lru.

Arguments Ret {Key _ _ Value A} a w.
Arguments Block {Key _ _ Value A} w.
Arguments Panic {Key _ _ Value A} w.
Arguments Visited {Key Value} e.

(** ** Concrete callbacks, for the examples *)

Module Demo.

(** A callback that leaves the cache alone, like the [fmt.Println] of the
    repository's test. *)
Definition inert (f : fptr) (k : string) (v : Z) (c : @Cache string _ _ Z)
    : @reply string _ _ Z :=
  Returns c.

(** A callback that puts its key back with the value 7, as the statement
    [c.cache[k] = c.dl.PushFront(&entry{k, 7, 0, nil})] does. *)
Definition reload (f : fptr) (k : string) (v : Z) (c : @Cache string _ _ Z)
    : @reply string _ _ Z :=
  match dl c, cache c with
  | Some L, Some g =>
      Returns (mkCache (MaxEntries c) (Some (length (mem c) :: L))
                 (Some (<[k := length (mem c)]> g))
                 (mem c ++ [Entry k 7%Z 0%Z None]))
  | _, _ => Panics c
  end.

(** A random source that stays below its bound. *)
Definition pick (seed n : Z) : Z := (seed mod n)%Z.

(** One key with a time to live of 100 and the callback 0, at time 0. *)
Definition one_expiring (cb : fptr -> string -> Z -> @Cache string _ _ Z -> @reply string _ _ Z)
    : @world string _ _ Z :=
  world_of (AddExWithOnEvicted cb 0 "x" 1%Z 100 (Some 0) (New 2)).

(** [Add(A); Add(B); Get(A); Add(C)]. *)
Definition lru_order_script
    (cb : fptr -> string -> Z -> @Cache string _ _ Z -> @reply string _ _ Z)
    : @M string _ _ Z unit :=
  bind (Add cb "A" 1%Z) (fun _ =>
  bind (Add cb "B" 2%Z) (fun _ =>
  bind (Get 0%Z cb 0 "A") (fun _ =>
  Add cb "C" 3%Z))).

(** What [removeElement] leaves of [one_expiring reload] when [Get] calls
    it on the element of [x], with the mutex held. *)
Definition reloaded : @world string _ _ Z :=
  world_of (removeElement reload 0
              (World (obj (one_expiring reload)) true (log (one_expiring reload)))).

(** An unbounded cache with [x], which expires at 100, and [y], which does
    not expire. *)
Definition two_keys : @world string _ _ Z :=
  world_of (bind (AddEx inert 0 "x" 1%Z 100) (fun _ => Add inert "y" 2%Z) (New 0)).

(** A session of a user: every kind of call, within the capacity. *)
Definition session : list (@request string Z) :=
  [CallAddEx 0 "a" 1%Z 100; CallAdd "b" 2%Z; CallGet 50 "a";
   CallDeleteExpired 201 ["a"; "b"]; CallLen; CallRemove "b";
   CallRemoveOldest; CallAdd "c" 3%Z; CallClear].

Definition session_end : @world string _ _ Z :=
  world_of (exec_all 0%Z inert pick session (New 2)).

(** A cache of capacity 1 that holds the key [a]. *)
Definition full_of_one : @world string _ _ Z :=
  world_of (Add inert "a" 1%Z (New 1)).

End Demo.

(** * Properties *)

(** ** The list *)

Lemma elem_of_unlink (e x : eptr) (L : list eptr) :
  x ∈ unlink e L <-> x ∈ L /\ x ≠ e.
Proof. unfold unlink. rewrite list_elem_of_filter. split; intros [? ?]; split; assumption. Qed.

Lemma NoDup_unlink (e : eptr) (L : list eptr) : NoDup L -> NoDup (unlink e L).
Proof. apply NoDup_filter. Qed.

Lemma unlink_absent (e : eptr) (L : list eptr) : e ∉ L -> unlink e L = L.
Proof.
  induction L as [|x L IH]; intros Hin; [reflexivity|].
  unfold unlink in *. rewrite filter_cons_True.
  - f_equal. apply IH. intros Hx. apply Hin. now right.
  - intros ->. apply Hin. now left.
Qed.

Lemma length_unlink (e : eptr) (L : list eptr) :
  NoDup L -> e ∈ L -> S (length (unlink e L)) = length L.
Proof.
  induction 1 as [|x L Hx Hnd IH]; intros Hin.
  - inversion Hin.
  - destruct (decide (x = e)) as [->|Hne].
    + unfold unlink. rewrite filter_cons_False by (intros Hf; now apply Hf).
      fold (unlink e L). now rewrite unlink_absent.
    + unfold unlink. rewrite filter_cons_True by assumption.
      fold (unlink e L). simpl. f_equal. apply IH.
      inversion Hin; subst; [contradiction|assumption].
Qed.

Section Properties.

Context {Key : Type} `{Countable Key} {Value : Type}.
Variable zero : Value.
Variable run : fptr -> Key -> Value -> @Cache Key _ _ Value -> @reply Key _ _ Value.
Variable Intn : Z -> Z -> Z.

Local Abbreviation cacheT := (@Cache Key _ _ Value).
Local Abbreviation worldT := (@world Key _ _ Value).
Local Abbreviation entryT := (@entry Key Value).
Local Abbreviation eventT := (@event Key Value).

(** ** Consistency *)

Lemma New_consistent (n : Z) : consistent (obj (@New Key _ _ Value n)).
Proof.
  split; simpl.
  - split; discriminate.
  - intros L [= <-]. constructor.
  - intros k e Hk. rewrite lookup_empty in Hk. discriminate.
  - intros L e [= <-] He. inversion He.
Qed.

Lemma New_idle (n : Z) : idle (@New Key _ _ Value n).
Proof. split; [reflexivity|apply New_consistent]. Qed.

(** ** The removal routine *)

Lemma removeElement_eq (e : eptr) (w : worldT) (kv : entryT) :
  mem (obj w) !! e = Some kv ->
  removeElement run e w =
    match OnEvicted kv with
    | None => Ret tt (World (detached e kv (obj w)) (lock w) (Removed e kv :: log w))
    | Some f =>
        match run f (key kv) (value kv) (detached e kv (obj w)) with
        | Returns c =>
            Ret tt (World c (lock w)
                      (Fired f (key kv) (value kv) :: Removed e kv :: log w))
        | Blocks c =>
            Block (World c (lock w)
                     (Fired f (key kv) (value kv) :: Removed e kv :: log w))
        | Panics c =>
            Panic (World c (lock w)
                     (Fired f (key kv) (value kv) :: Removed e kv :: log w))
        end
    end.
Proof.
  intros Hm. destruct w as [c lk lg]. simpl in Hm.
  unfold removeElement, bind, get_obj, put_obj, deref, emit, call, ret. simpl.
  rewrite Hm. destruct (OnEvicted kv) as [f|]; reflexivity.
Qed.

(** ** Inserting a key that is there *)

Lemma add_present (now : Z) (k : Key) (v : Value) (d : Z) (cb : option fptr)
    (w : worldT) (g : gmap Key eptr) (e : eptr) (kv : entryT) :
  lock w = false ->
  cache (obj w) = Some g ->
  g !! k = Some e ->
  mem (obj w) !! e = Some kv ->
  add run now k v d cb w =
    Ret tt (World
      (set_mem (<[e := Entry (key kv) v (deadline now d) (OnEvicted kv)]> (mem (obj w)))
         (set_dl (list_MoveToFront e (dl (obj w))) (obj w)))
      false (log w)).
Proof.
  intros Hl Hc Hk Hm. destruct w as [[N l m h] lk lg]. simpl in *. subst.
  unfold add, locked, bind, get_obj, put_obj, deref, ret, MoveToFront. simpl.
  rewrite Hk. simpl. rewrite Hm. reflexivity.
Qed.

Lemma Len_eq (w : worldT) (L : list eptr) (g : gmap Key eptr) :
  dl (obj w) = Some L -> cache (obj w) = Some g ->
  Len w = Ret (Z.of_nat (length L)) w.
Proof.
  intros Hd Hc. unfold Len, dl_Len, bind, get_obj, ret.
  rewrite Hc. rewrite Hd. reflexivity.
Qed.

Lemma consistent_lookup (c : cacheT) (k : Key) (e : eptr) :
  consistent c -> index (cache c) k = Some e ->
  exists L g kv, dl c = Some L /\ cache c = Some g /\ g !! k = Some e /\
    e ∈ L /\ NoDup L /\ mem c !! e = Some kv /\ key kv = k.
Proof.
  intros Hc Hk. destruct (cons_index c Hc k e Hk) as [(L & HL & Hin) (kv & Hm & Hkey)].
  destruct (cache c) as [g|] eqn:Hg; [|discriminate].
  exists L, g, kv. repeat split; try assumption.
  eapply cons_nodup; eassumption.
Qed.

Lemma update_consistent (c : cacheT) (L : list eptr) (e : eptr) (kv kv' : entryT) :
  consistent c -> dl c = Some L -> e ∈ L -> mem c !! e = Some kv ->
  key kv' = key kv ->
  consistent (set_mem (<[e := kv']> (mem c)) (set_dl (Some (e :: unlink e L)) c)).
Proof.
  intros Hc HL Hin Hm Hkey.
  assert (Hlt : e < length (mem c)) by (eapply lookup_lt_Some; eassumption).
  split; simpl.
  - split; [discriminate|]. intros Hn. apply (cons_nil c Hc) in Hn. congruence.
  - intros L' [= <-]. constructor.
    + rewrite elem_of_unlink. intros [_ Hne]. now apply Hne.
    + apply NoDup_unlink. eapply cons_nodup; eassumption.
  - intros k' e' Hk'. destruct (cons_index c Hc k' e' Hk') as [(L0 & HL0 & Hin0) (kv0 & Hm0 & Hk0)].
    assert (L0 = L) by congruence. subst L0. split.
    + exists (e :: unlink e L). split; [reflexivity|].
      destruct (decide (e' = e)) as [->|Hne]; [now left|].
      right. rewrite elem_of_unlink. split; assumption.
    + destruct (decide (e' = e)) as [->|Hne].
      * exists kv'. rewrite list_lookup_insert_eq by assumption.
        split; [reflexivity|]. congruence.
      * exists kv0. rewrite list_lookup_insert_ne by congruence. split; assumption.
  - intros L' e' [= <-] Hin'.
    assert (Hin0 : e' ∈ L).
    { inversion Hin' as [|? ? ? Hu]; subst; [assumption|].
      apply elem_of_unlink in Hu. exact (proj1 Hu). }
    destruct (cons_list c Hc L e' HL Hin0) as (kv0 & Hm0 & Hi0).
    destruct (decide (e' = e)) as [->|Hne].
    + exists kv'. rewrite list_lookup_insert_eq by assumption.
      split; [reflexivity|]. rewrite Hkey. congruence.
    + exists kv0. rewrite list_lookup_insert_ne by congruence. split; assumption.
Qed.

(** C9.  Inserting a key that is already there, through [Add], [AddEx] or
    [AddExWithOnEvicted] (all three are [add]), whatever the capacity and
    however full the cache: the call returns, the size is what it was, the
    log has no new removal and no new callback call, the map holds the same
    keys on the same elements, the element of the key is moved to the front
    of the list while the others keep their order, that element takes the
    new value and expiration, and every other element is what it was. *)
Theorem insert_present_frame (now : Z) (k : Key) (v : Value) (d : Z)
    (cb : option fptr) (w : worldT) (L : list eptr) (e : eptr) (kv : entryT) :
  idle w ->
  dl (obj w) = Some L ->
  index (cache (obj w)) k = Some e ->
  mem (obj w) !! e = Some kv ->
  exists w',
    AddExWithOnEvicted run now k v d cb w = Ret tt w' /\
    Len w = Ret (Z.of_nat (length L)) w /\
    Len w' = Ret (Z.of_nat (length L)) w' /\
    log w' = log w /\
    cache (obj w') = cache (obj w) /\
    MaxEntries (obj w') = MaxEntries (obj w) /\
    dl (obj w') = Some (e :: unlink e L) /\
    mem (obj w') !! e = Some (Entry k v (deadline now d) (OnEvicted kv)) /\
    (forall e', e' ≠ e -> mem (obj w') !! e' = mem (obj w) !! e') /\
    length (mem (obj w')) = length (mem (obj w)) /\
    idle w'.
Proof.
  intros [Hl Hc] HL Hk Hm.
  destruct (consistent_lookup _ _ _ Hc Hk) as (L0 & g & kv0 & HL0 & Hg & Hgk & Hin & Hnd & Hm0 & Hkey).
  assert (L0 = L) by congruence. assert (kv0 = kv) by congruence. subst L0 kv0.
  assert (Hlt : e < length (mem (obj w))) by (eapply lookup_lt_Some; eassumption).
  eexists. split.
  { unfold AddExWithOnEvicted. eapply add_present; eassumption. }
  rewrite HL. simpl. rewrite decide_True by assumption.
  split; [eapply Len_eq; eassumption|].
  split.
  { erewrite Len_eq; simpl; [|reflexivity|eassumption].
    rewrite <- (length_unlink e L) by assumption. reflexivity. }
  split; [reflexivity|]. split; [reflexivity|]. split; [reflexivity|].
  split; [reflexivity|].
  split; [rewrite list_lookup_insert_eq by assumption; now rewrite Hkey|].
  split; [intros e' Hne; apply list_lookup_insert_ne; congruence|].
  split; [apply length_insert|].
  split; [reflexivity|].
  apply (update_consistent (obj w) L e kv); auto.
Qed.

(** ** Removing a key *)

Lemma log_Remove (k : Key) (w : worldT) (g : gmap Key eptr) (e : eptr) (kv : entryT) :
  lock w = false ->
  cache (obj w) = Some g ->
  g !! k = Some e ->
  mem (obj w) !! e = Some kv ->
  log (world_of (Remove run k w)) =
    match OnEvicted kv with
    | Some f => Fired f (key kv) (value kv) :: Removed e kv :: log w
    | None => Removed e kv :: log w
    end.
Proof.
  intros Hl Hc Hk Hm. destruct w as [c lk lg]. simpl in *. subst lk.
  unfold Remove, bind, get_obj, locked. simpl. rewrite Hc. simpl.
  unfold index. rewrite Hc. simpl. rewrite Hk.
  rewrite (removeElement_eq e _ kv) by assumption. simpl.
  destruct (OnEvicted kv) as [f|]; [|reflexivity].
  destruct (run f (key kv) (value kv) _); reflexivity.
Qed.

(** ** Inserting a key that is not there *)

Lemma add_fresh (now : Z) (k : Key) (v : Value) (d : Z) (cb : option fptr)
    (w : worldT) (L : list eptr) (g : gmap Key eptr) :
  lock w = false ->
  dl (obj w) = Some L ->
  cache (obj w) = Some g ->
  g !! k = None ->
  add run now k v d cb w =
    let c' := mkCache (MaxEntries (obj w))
                (Some (length (mem (obj w)) :: L))
                (Some (<[k := length (mem (obj w))]> g))
                (mem (obj w) ++ [Entry k v (deadline now d) cb]) in
    if (MaxEntries (obj w) =? 0)%Z then Ret tt (World c' false (log w))
    else if (MaxEntries (obj w) <? Z.of_nat (S (length L)))%Z
         then Block (World c' true (log w))
         else Ret tt (World c' false (log w)).
Proof.
  intros Hl Hd Hc Hk. destruct w as [[N l m h] lk lg]. simpl in *. subst.
  unfold add, locked, bind, get_obj, put_obj, ret, PushFront, map_store, dl_Len,
    RemoveOldest, set_cache, set_dl, set_mem. cbn.
  rewrite Hk. cbn.
  destruct (N =? 0)%Z; [reflexivity|]. cbn.
  change (Z.pos (Pos.of_succ_nat (length L))) with (Z.of_nat (S (length L))).
  destruct (N <? Z.of_nat (S (length L)))%Z; reflexivity.
Qed.

(** C5.  A key whose entry has the callback [f]: a plain [Add] or [AddEx] of
    that key returns, gives the entry the new value and expiration, moves it
    to the front and leaves [f] on it, with nothing logged; a [Remove] of
    the key after that calls [f] on the key and the new value. *)
Theorem plain_insert_keeps_callback (now : Z) (k : Key) (v : Value) (d : Z)
    (w : worldT) (L : list eptr) (e : eptr) (kv : entryT) (f : fptr) :
  idle w ->
  dl (obj w) = Some L ->
  index (cache (obj w)) k = Some e ->
  mem (obj w) !! e = Some kv ->
  OnEvicted kv = Some f ->
  exists w1 w2,
    Add run k v w = Ret tt w1 /\
    AddEx run now k v d w = Ret tt w2 /\
    mem (obj w1) !! e = Some (Entry k v 0 (Some f)) /\
    mem (obj w2) !! e = Some (Entry k v (deadline now d) (Some f)) /\
    dl (obj w1) = Some (e :: unlink e L) /\
    dl (obj w2) = Some (e :: unlink e L) /\
    log w1 = log w /\
    log w2 = log w /\
    log (world_of (Remove run k w1)) =
      Fired f k v :: Removed e (Entry k v 0 (Some f)) :: log w /\
    log (world_of (Remove run k w2)) =
      Fired f k v :: Removed e (Entry k v (deadline now d) (Some f)) :: log w.
Proof.
  intros [Hl Hc] HL Hk Hm Hf.
  destruct (consistent_lookup _ _ _ Hc Hk) as (L0 & g & kv0 & HL0 & Hg & Hgk & Hin & Hnd & Hm0 & Hkey).
  assert (L0 = L) by congruence. assert (kv0 = kv) by congruence. subst L0 kv0.
  assert (Hlt : e < length (mem (obj w))) by (eapply lookup_lt_Some; eassumption).
  assert (Hins : forall x : entryT, <[e := x]> (mem (obj w)) !! e = Some x)
    by (intros x; now apply list_lookup_insert_eq).
  do 2 eexists.
  split; [unfold Add; eapply add_present; eassumption|].
  split; [unfold AddEx; eapply add_present; eassumption|].
  rewrite HL, Hf, Hkey. simpl. rewrite decide_True by assumption.
  split; [apply Hins|]. split; [apply Hins|].
  split; [reflexivity|]. split; [reflexivity|].
  split; [reflexivity|]. split; [reflexivity|].
  split.
  - erewrite log_Remove; simpl; [|reflexivity|eassumption|eassumption|apply Hins].
    reflexivity.
  - erewrite log_Remove; simpl; [|reflexivity|eassumption|eassumption|apply Hins].
    reflexivity.
Qed.

(** C6.  [AddExWithOnEvicted] on a key that is there returns, writes the
    value and the expiration into the entry and leaves its callback field as
    it was, whatever callback the call passes, and makes no new element.  On
    a key that is not there, when the capacity is not exceeded, it returns
    with a new element under that key that carries the callback passed. *)
Theorem callback_attached_on_creation_only (now : Z) (k : Key) (v : Value)
    (d : Z) (cb : option fptr) (w : worldT) (L : list eptr)
    (g : gmap Key eptr) :
  idle w ->
  dl (obj w) = Some L ->
  cache (obj w) = Some g ->
  (forall e kv,
     g !! k = Some e -> mem (obj w) !! e = Some kv ->
     exists w',
       AddExWithOnEvicted run now k v d cb w = Ret tt w' /\
       mem (obj w') !! e = Some (Entry k v (deadline now d) (OnEvicted kv)) /\
       index (cache (obj w')) k = Some e /\
       length (mem (obj w')) = length (mem (obj w))) /\
  (g !! k = None ->
   (MaxEntries (obj w) = 0 \/ Z.of_nat (S (length L)) <= MaxEntries (obj w))%Z ->
     exists w',
       AddExWithOnEvicted run now k v d cb w = Ret tt w' /\
       index (cache (obj w')) k = Some (length (mem (obj w))) /\
       mem (obj w') !! length (mem (obj w)) =
         Some (Entry k v (deadline now d) cb)).
Proof.
  intros [Hl Hc] HL Hg. split.
  - intros e kv Hk Hm.
    assert (Hi : index (cache (obj w)) k = Some e) by (rewrite Hg; exact Hk).
    destruct (consistent_lookup _ _ _ Hc Hi) as (L0 & g0 & kv0 & _ & _ & _ & _ & _ & Hm0 & Hkey).
    assert (kv0 = kv) by congruence. subst kv0.
    assert (Hlt : e < length (mem (obj w))) by (eapply lookup_lt_Some; eassumption).
    eexists. split; [unfold AddExWithOnEvicted; eapply add_present; eassumption|].
    simpl. rewrite Hkey.
    split; [now apply list_lookup_insert_eq|].
    split; [rewrite Hg; exact Hk|apply length_insert].
  - intros Hk Hcap.
    unfold AddExWithOnEvicted. rewrite (add_fresh now k v d cb w L g) by assumption.
    cbv zeta.
    destruct (MaxEntries (obj w) =? 0)%Z eqn:Hz.
    + eexists. split; [reflexivity|]. simpl.
      split; [apply lookup_insert_eq|].
      rewrite lookup_app_r by lia. now rewrite Nat.sub_diag.
    + destruct (MaxEntries (obj w) <? Z.of_nat (S (length L)))%Z eqn:Hlt.
      * apply Z.ltb_lt in Hlt. apply Z.eqb_neq in Hz. lia.
      * eexists. split; [reflexivity|]. simpl.
        split; [apply lookup_insert_eq|].
        rewrite lookup_app_r by lia. now rewrite Nat.sub_diag.
Qed.

(** ** The capacity guard *)

(** C1.  A cache of capacity [N > 0] that already holds [N] entries or
    more, and a key that is not in it: the insert puts the new element in
    the list and in the map, passes the guard and calls [RemoveOldest],
    which asks for the mutex [add] holds.  The call never returns: the
    outcome is [Block], with the mutex held, one entry more than before in
    the list and in the map, and nothing removed or called. *)
Theorem overflow_insert_blocks (now : Z) (k : Key) (v : Value) (d : Z)
    (cb : option fptr) (w : worldT) (L : list eptr) (g : gmap Key eptr) :
  lock w = false ->
  dl (obj w) = Some L ->
  cache (obj w) = Some g ->
  g !! k = None ->
  (0 < MaxEntries (obj w))%Z ->
  (MaxEntries (obj w) <= Z.of_nat (length L))%Z ->
  exists w',
    add run now k v d cb w = Block w' /\
    lock w' = true /\
    dl (obj w') = Some (length (mem (obj w)) :: L) /\
    cache (obj w') = Some (<[k := length (mem (obj w))]> g) /\
    log w' = log w.
Proof.
  intros Hl Hd Hc Hk Hpos Hfull.
  rewrite (add_fresh now k v d cb w L g) by assumption. cbv zeta.
  destruct (MaxEntries (obj w) =? 0)%Z eqn:Hz; [apply Z.eqb_eq in Hz; lia|].
  destruct (MaxEntries (obj w) <? Z.of_nat (S (length L)))%Z eqn:Hlt;
    [|apply Z.ltb_ge in Hlt; lia].
  eexists. split; [reflexivity|]. simpl. repeat split.
Qed.

(** C10.  A cache with a negative capacity and a key that is not in it: the
    guard [MaxEntries != 0 && Len() > MaxEntries] passes and [add] calls
    [RemoveOldest], which asks for the mutex [add] holds.  The outcome is
    [Block]: the new entry stays in the list and in the map, and no
    callback is called. *)
Theorem negative_capacity_insert_blocks (now : Z) (k : Key) (v : Value)
    (d : Z) (cb : option fptr) (w : worldT) (L : list eptr)
    (g : gmap Key eptr) :
  lock w = false ->
  dl (obj w) = Some L ->
  cache (obj w) = Some g ->
  g !! k = None ->
  (MaxEntries (obj w) < 0)%Z ->
  exists w',
    AddExWithOnEvicted run now k v d cb w = Block w' /\
    lock w' = true /\
    dl (obj w') = Some (length (mem (obj w)) :: L) /\
    index (cache (obj w')) k = Some (length (mem (obj w))) /\
    mem (obj w') !! length (mem (obj w)) = Some (Entry k v (deadline now d) cb) /\
    log w' = log w.
Proof.
  intros Hl Hd Hc Hk Hneg. unfold AddExWithOnEvicted.
  rewrite (add_fresh now k v d cb w L g) by assumption. cbv zeta.
  destruct (MaxEntries (obj w) =? 0)%Z eqn:Hz; [apply Z.eqb_eq in Hz; lia|].
  destruct (MaxEntries (obj w) <? Z.of_nat (S (length L)))%Z eqn:Hlt;
    [|apply Z.ltb_ge in Hlt; lia].
  eexists. split; [reflexivity|]. simpl.
  split; [reflexivity|]. split; [reflexivity|].
  split; [apply lookup_insert_eq|].
  split; [|reflexivity].
  rewrite lookup_app_r by lia. now rewrite Nat.sub_diag.
Qed.

(** ** Clearing *)

Lemma world_eta (w : worldT) : World (obj w) (lock w) (log w) = w.
Proof. destruct w; reflexivity. Qed.

Lemma unlocked_eta (w : worldT) :
  lock w = false -> World (obj w) false (log w) = w.
Proof. intros <-. apply world_eta. Qed.

(** C7.  [Clear] returns with the list and the map nil, the log as it was
    (no callback is called) and the mutex untouched.  On the cleared cache
    [Len] is 0, [Get] of any key is [(zero, false)], and [Remove],
    [RemoveOldest] and [DeleteExpired] return without a change, which is
    what they do on the cache with an empty list and map; an insert does
    exactly what it does on that empty cache, never panics, and for a
    capacity that is not negative returns with the list and the map set
    again and holding the one new entry. *)
Theorem Clear_leaves_empty_cache (w : worldT) (now : Z) (k : Key)
    (v : Value) (d : Z) (cb : option fptr) (order : list Key) :
  lock w = false ->
  exists w0,
    Clear w = Ret tt w0 /\
    log w0 = log w /\
    dl (obj w0) = None /\ cache (obj w0) = None /\
    Len w0 = Ret 0%Z w0 /\
    Get zero run now k w0 = Ret (zero, false) w0 /\
    Remove run k w0 = Ret tt w0 /\
    RemoveOldest run w0 = Ret tt w0 /\
    DeleteExpired run Intn now order w0 = Ret tt w0 /\
    Len (emptied w0) = Ret 0%Z (emptied w0) /\
    Get zero run now k (emptied w0) = Ret (zero, false) (emptied w0) /\
    Remove run k (emptied w0) = Ret tt (emptied w0) /\
    RemoveOldest run (emptied w0) = Ret tt (emptied w0) /\
    DeleteExpired run Intn now order (emptied w0) = Ret tt (emptied w0) /\
    add run now k v d cb w0 = add run now k v d cb (emptied w0) /\
    (forall w', add run now k v d cb w0 ≠ Panic w') /\
    ((0 <= MaxEntries (obj w))%Z ->
     exists w1,
       add run now k v d cb w0 = Ret tt w1 /\
       dl (obj w1) = Some [length (mem (obj w))] /\
       cache (obj w1) = Some {[k := length (mem (obj w))]} /\
       mem (obj w1) !! length (mem (obj w)) = Some (Entry k v (deadline now d) cb) /\
       Len w1 = Ret 1%Z w1 /\
       log w1 = log w).
Proof.
  intros Hl. destruct w as [[N l m h] lk lg]. simpl in Hl. subst lk.
  assert (Hadd : add run now k v d cb
            (World (mkCache N (Some []) (Some ∅) h) false lg) =
          if (N =? 0)%Z
          then Ret tt (World (mkCache N (Some [length h]) (Some (<[k := length h]> ∅))
                               (h ++ [Entry k v (deadline now d) cb])) false lg)
          else if (N <? 1)%Z
          then Block (World (mkCache N (Some [length h]) (Some (<[k := length h]> ∅))
                               (h ++ [Entry k v (deadline now d) cb])) true lg)
          else Ret tt (World (mkCache N (Some [length h]) (Some (<[k := length h]> ∅))
                               (h ++ [Entry k v (deadline now d) cb])) false lg)).
  { rewrite (add_fresh now k v d cb _ [] ∅); reflexivity. }
  exists (World (mkCache N None None h) false lg).
  split; [reflexivity|].
  split; [reflexivity|]. split; [reflexivity|]. split; [reflexivity|].
  split; [reflexivity|]. split; [reflexivity|]. split; [reflexivity|].
  split; [reflexivity|]. split; [reflexivity|]. split; [reflexivity|].
  split; [reflexivity|]. split; [reflexivity|]. split; [reflexivity|].
  split; [reflexivity|]. split; [reflexivity|].
  change (add run now k v d cb
            (World (mkCache N None None h) false lg))
    with (add run now k v d cb (World (mkCache N (Some []) (Some ∅) h) false lg)).
  cbn [obj MaxEntries mem].
  rewrite Hadd. split.
  - destruct (N =? 0)%Z; [discriminate|]. destruct (N <? 1)%Z; discriminate.
  - intros Hpos. destruct (N =? 0)%Z eqn:Hz.
    + eexists. split; [reflexivity|]. simpl. repeat split.
      rewrite lookup_app_r by lia. now rewrite Nat.sub_diag.
    + destruct (N <? 1)%Z eqn:Hlt.
      { apply Z.ltb_lt in Hlt. apply Z.eqb_neq in Hz. lia. }
      eexists. split; [reflexivity|]. simpl. repeat split.
      rewrite lookup_app_r by lia. now rewrite Nat.sub_diag.
Qed.

(** ** Reading *)

Lemma Get_absent (now : Z) (k : Key) (w : worldT) :
  lock w = false ->
  index (cache (obj w)) k = None ->
  Get zero run now k w = Ret (zero, false) w.
Proof.
  intros Hl Hk. destruct w as [[N l m h] lk lg]. simpl in *. subst lk.
  unfold Get, bind, get_obj, locked, ret. simpl.
  destruct m as [g|]; [|reflexivity]. simpl in *. rewrite Hk. reflexivity.
Qed.

Lemma Get_live (now : Z) (k : Key) (w : worldT) (g : gmap Key eptr)
    (e : eptr) (kv : entryT) :
  lock w = false ->
  cache (obj w) = Some g ->
  g !! k = Some e ->
  mem (obj w) !! e = Some kv ->
  Expired now kv = false ->
  Get zero run now k w =
    Ret (value kv, true)
      (World (set_dl (list_MoveToFront e (dl (obj w))) (obj w)) false (log w)).
Proof.
  intros Hl Hc Hk Hm Hx. destruct w as [[N l m h] lk lg]. simpl in *. subst.
  unfold Get, bind, get_obj, put_obj, locked, ret, deref, MoveToFront. simpl.
  rewrite Hk. simpl. rewrite Hm. rewrite Hx. reflexivity.
Qed.

(** What [Get] does with an expired entry once [removeElement] has
    returned: the second lookup decides. *)
Lemma Get_expired (now : Z) (k : Key) (w w1 : worldT) (g : gmap Key eptr)
    (e : eptr) (kv : entryT) :
  lock w = false ->
  cache (obj w) = Some g ->
  g !! k = Some e ->
  mem (obj w) !! e = Some kv ->
  Expired now kv = true ->
  removeElement run e (World (obj w) true (log w)) = Ret tt w1 ->
  Get zero run now k w =
    match index (cache (obj w1)) k with
    | None => Ret (zero, false) (World (obj w1) false (log w1))
    | Some e' =>
        match mem (obj w1) !! e' with
        | Some kv' => Ret (value kv', true) (World (obj w1) false (log w1))
        | None => Panic (World (obj w1) false (log w1))
        end
    end.
Proof.
  intros Hl Hc Hk Hm Hx Hr. destruct w as [[N l m h] lk lg]. simpl in *. subst.
  unfold Get, bind, get_obj, locked, ret, deref. simpl.
  rewrite Hk. simpl. rewrite Hm. rewrite Hx. rewrite Hr. simpl.
  destruct (index (cache (obj w1)) k) as [e'|]; [|reflexivity].
  destruct (mem (obj w1) !! e'); reflexivity.
Qed.

(** When the removal does not return (its callback blocks or panics),
    [Get] has no result. *)
Lemma Get_expired_stuck (now : Z) (k : Key) (w : worldT) (g : gmap Key eptr)
    (e : eptr) (kv : entryT) :
  lock w = false ->
  cache (obj w) = Some g ->
  g !! k = Some e ->
  mem (obj w) !! e = Some kv ->
  Expired now kv = true ->
  (forall w1, removeElement run e (World (obj w) true (log w)) ≠ Ret tt w1) ->
  forall r w', Get zero run now k w ≠ Ret r w'.
Proof.
  intros Hl Hc Hk Hm Hx Hr r w'. destruct w as [[N l m h] lk lg]. simpl in *. subst.
  unfold Get, bind, get_obj, locked, ret, deref. simpl.
  rewrite Hk. simpl. rewrite Hm. rewrite Hx.
  destruct (removeElement run e _) as [[] w1|w1|w1] eqn:Hrm;
    [exfalso; eapply Hr; reflexivity|discriminate|discriminate].
Qed.

Lemma detached_index (c : cacheT) (e : eptr) (kv : entryT) :
  index (cache (detached e kv c)) (key kv) = None.
Proof.
  unfold detached, map_delete, index. simpl.
  destruct (cache c) as [g|]; simpl; [apply lookup_delete_eq|reflexivity].
Qed.

Lemma detached_dl (c : cacheT) (e : eptr) (kv : entryT) (L : list eptr) :
  dl c = Some L -> dl (detached e kv c) = Some (unlink e L).
Proof. intros HL. unfold detached, list_Remove. simpl. now rewrite HL. Qed.

(** C2, as the code has it.  On an idle cache: [Get] of a key that is not
    in the map returns [(zero, false)] and changes nothing.  [Get] of a key
    whose entry has not expired moves the entry to the front of the list and
    returns its value with [true].  [Get] of a key whose entry has expired
    (expiration set and smaller than the clock) takes the element out of the
    list and the key out of the map, and calls the callback of the entry
    once if it has one; without a callback it returns [(zero, false)]; with
    a callback that returns, it returns [(zero, false)] when the key is
    still out of the map, and the value now under the key with [true] when
    the callback has put the key back. *)
Theorem Get_cases (now : Z) (k : Key) (w : worldT) :
  idle w ->
  (index (cache (obj w)) k = None ->
     Get zero run now k w = Ret (zero, false) w) /\
  (forall L e kv,
     dl (obj w) = Some L ->
     index (cache (obj w)) k = Some e ->
     mem (obj w) !! e = Some kv ->
     Expired now kv = false ->
     Get zero run now k w =
       Ret (value kv, true)
         (World (set_dl (Some (e :: unlink e L)) (obj w)) false (log w))) /\
  (forall L e kv,
     dl (obj w) = Some L ->
     index (cache (obj w)) k = Some e ->
     mem (obj w) !! e = Some kv ->
     Expired now kv = true ->
     dl (detached e kv (obj w)) = Some (unlink e L) /\
     (e ∉ unlink e L) /\
     index (cache (detached e kv (obj w))) k = None /\
     match OnEvicted kv with
     | None =>
         Get zero run now k w =
           Ret (zero, false)
             (World (detached e kv (obj w)) false (Removed e kv :: log w))
     | Some f =>
         forall c,
           run f k (value kv) (detached e kv (obj w)) = Returns c ->
           (index (cache c) k = None ->
            Get zero run now k w =
              Ret (zero, false)
                (World c false (Fired f k (value kv) :: Removed e kv :: log w))) /\
           (forall e' kv',
              index (cache c) k = Some e' ->
              mem c !! e' = Some kv' ->
              Get zero run now k w =
                Ret (value kv', true)
                  (World c false (Fired f k (value kv) :: Removed e kv :: log w)))
     end).
Proof.
  intros [Hl Hc]. split; [apply Get_absent; assumption|]. split.
  - intros L e kv HL Hk Hm Hx.
    destruct (consistent_lookup _ _ _ Hc Hk) as (L0 & g & kv0 & HL0 & Hg & Hgk & Hin & _).
    assert (L0 = L) by congruence. subst L0.
    rewrite (Get_live now k w g e kv) by assumption.
    rewrite HL. simpl. now rewrite decide_True by assumption.
  - intros L e kv HL Hk Hm Hx.
    destruct (consistent_lookup _ _ _ Hc Hk) as (L0 & g & kv0 & HL0 & Hg & Hgk & Hin & _ & Hm0 & Hkey).
    assert (kv0 = kv) by congruence. subst kv0.
    split; [now apply detached_dl|].
    split; [rewrite elem_of_unlink; intros [_ Hne]; now apply Hne|].
    assert (Hd : index (cache (detached e kv (obj w))) k = None)
      by (rewrite <- Hkey; apply detached_index).
    split; [exact Hd|].
    pose proof (removeElement_eq e (World (obj w) true (log w)) kv Hm) as Hr.
    cbn [obj lock log] in Hr. destruct (OnEvicted kv) as [f|].
    + intros c Hrun. rewrite Hkey in Hr. rewrite Hrun in Hr. split.
      * intros Hnone. rewrite (Get_expired now k w _ g e kv Hl Hg Hgk Hm Hx Hr).
        cbn [obj lock log]. now rewrite Hnone.
      * intros e' kv' Hsome Hm'. rewrite (Get_expired now k w _ g e kv Hl Hg Hgk Hm Hx Hr).
        cbn [obj lock log]. now rewrite Hsome, Hm'.
    + rewrite (Get_expired now k w _ g e kv Hl Hg Hgk Hm Hx Hr).
      cbn [obj lock log]. now rewrite Hd.
Qed.

(** C8.  [Get] on an expired entry, once [removeElement] has returned: the
    removal has taken the key out of the map (without a callback it stays
    out), and [Get] looks the key up again in the cache the callback left.
    When the key is back, [Get] returns the value now under it with [true];
    when it is not, [Get] returns [(zero, false)]. *)
Theorem Get_second_lookup (now : Z) (k : Key) (w w1 : worldT) (e : eptr)
    (kv : entryT) :
  idle w ->
  index (cache (obj w)) k = Some e ->
  mem (obj w) !! e = Some kv ->
  Expired now kv = true ->
  removeElement run e (World (obj w) true (log w)) = Ret tt w1 ->
  index (cache (detached e kv (obj w))) k = None /\
  (OnEvicted kv = None -> obj w1 = detached e kv (obj w)) /\
  (forall f, OnEvicted kv = Some f ->
     run f k (value kv) (detached e kv (obj w)) = Returns (obj w1)) /\
  (forall e' kv',
     index (cache (obj w1)) k = Some e' ->
     mem (obj w1) !! e' = Some kv' ->
     Get zero run now k w =
       Ret (value kv', true) (World (obj w1) false (log w1))) /\
  (index (cache (obj w1)) k = None ->
     Get zero run now k w = Ret (zero, false) (World (obj w1) false (log w1))).
Proof.
  intros [Hl Hc] Hk Hm Hx Hr.
  destruct (consistent_lookup _ _ _ Hc Hk) as (L0 & g & kv0 & HL0 & Hg & Hgk & Hin & _ & Hm0 & Hkey).
  assert (kv0 = kv) by congruence. subst kv0.
  pose proof (removeElement_eq e (World (obj w) true (log w)) kv Hm) as Heq.
  rewrite Hr in Heq. cbn [obj lock log] in Heq.
  split; [rewrite <- Hkey; apply detached_index|].
  split.
  { intros Hnone. rewrite Hnone in Heq. now inversion Heq. }
  split.
  { intros f Hf. rewrite Hf, Hkey in Heq.
    destruct (run f k (value kv) _); [|discriminate|discriminate].
    now inversion Heq. }
  split.
  - intros e' kv' Hsome Hm'.
    rewrite (Get_expired now k w w1 g e kv Hl Hg Hgk Hm Hx Hr).
    now rewrite Hsome, Hm'.
  - intros Hnone.
    rewrite (Get_expired now k w w1 g e kv Hl Hg Hgk Hm Hx Hr).
    now rewrite Hnone.
Qed.

(** ** The sweep: what it logs *)

Lemma removeElement_log (e : eptr) (w : worldT) :
  exists evs,
    log (world_of (removeElement run e w)) = evs ++ log w /\
    visits evs = 0 /\
    forall ev, ev ∈ evs ->
      (exists kv, mem (obj w) !! e = Some kv /\ ev = Removed e kv) \/
      (exists f k v, ev = Fired f k v).
Proof.
  destruct (mem (obj w) !! e) as [kv|] eqn:Hm.
  - rewrite (removeElement_eq e w kv Hm).
    destruct (OnEvicted kv) as [f|].
    + exists [Fired f (key kv) (value kv); Removed e kv].
      split; [destruct (run f (key kv) (value kv) _); reflexivity|].
      split; [reflexivity|].
      intros ev Hev. apply elem_of_cons in Hev as [->|Hev]; [right; eauto|].
      apply list_elem_of_singleton in Hev as ->. left; eauto.
    + exists [Removed e kv]. split; [reflexivity|]. split; [reflexivity|].
      intros ev Hev. apply list_elem_of_singleton in Hev as ->. left; eauto.
  - exists []. split.
    + destruct w as [c lk lg]. simpl in Hm.
      unfold removeElement, bind, get_obj, put_obj, deref. simpl. now rewrite Hm.
    + split; [reflexivity|]. intros ev Hev. inversion Hev.
Qed.

Lemma visits_app (evs1 evs2 : list eventT) :
  visits (evs1 ++ evs2) = visits evs1 + visits evs2.
Proof.
  induction evs1 as [|[?|? ?|? ? ?] evs1 IH]; simpl; [reflexivity|..]; rewrite IH; reflexivity.
Qed.

Lemma sweep_log (now : Z) (order : list Key) :
  forall (count : Z) (it : gmap Key eptr) (w : worldT),
    (0 <= count)%Z ->
    exists evs,
      log (world_of (sweep run now order count it w)) = evs ++ log w /\
      (Z.of_nat (visits evs) <= count)%Z /\
      Forall (removal_of_stale now) evs.
Proof.
  induction order as [|k rest IH]; intros count it w Hcount.
  - exists []. split; [reflexivity|]. split; [simpl; lia|constructor].
  - simpl. unfold bind at 1. unfold get_obj at 1.
    destruct (iterated it (obj w) !! k) as [v|]; [|apply IH; assumption].
    destruct (count =? 0)%Z eqn:Hz.
    { exists []. split; [reflexivity|]. split; [simpl; lia|constructor]. }
    apply Z.eqb_neq in Hz.
    unfold bind at 1. unfold emit at 1.
    set (w1 := World (obj w) (lock w) (Visited v :: log w)).
    unfold bind at 1. unfold deref at 1.
    change (mem (obj w1)) with (mem (obj w)).
    destruct (mem (obj w) !! v) as [kv|] eqn:Hm.
    2:{ exists [Visited v]. split; [reflexivity|]. split; [simpl; lia|].
        repeat constructor. }
    unfold bind at 1.
    destruct ((0 <? Expiration kv)%Z && (Expiration kv <? now)%Z) eqn:Hst.
    + apply andb_true_iff in Hst as [H1 H2].
      apply Z.ltb_lt in H1. apply Z.ltb_lt in H2.
      destruct (removeElement_log v w1) as (evs1 & Hlog1 & Hv1 & Hev1).
      assert (Hok1 : Forall (removal_of_stale now) evs1).
      { apply Forall_forall. intros ev Hev.
        destruct (Hev1 ev Hev) as [(kv0 & Hm0 & ->)|(f & k0 & v0 & ->)]; [|exact I].
        simpl in Hm0. assert (kv0 = kv) by congruence. subst kv0.
        split; assumption. }
      destruct (removeElement run v w1) as [[] w2|w2|w2]; simpl in Hlog1.
      * destruct (IH (count - 1)%Z (iterated it (obj w)) w2 ltac:(lia))
          as (evs2 & Hlog2 & Hv2 & Hok2).
        exists (evs2 ++ evs1 ++ [Visited v]).
        split; [rewrite Hlog2, Hlog1; simpl; now rewrite <- !app_assoc|].
        split.
        { rewrite !visits_app, Hv1. simpl. lia. }
        apply Forall_app. split; [assumption|].
        apply Forall_app. split; [assumption|]. repeat constructor.
      * exists (evs1 ++ [Visited v]).
        split; [simpl; rewrite Hlog1; simpl; now rewrite <- app_assoc|].
        split; [rewrite visits_app, Hv1; simpl; lia|].
        apply Forall_app. split; [assumption|]. repeat constructor.
      * exists (evs1 ++ [Visited v]).
        split; [simpl; rewrite Hlog1; simpl; now rewrite <- app_assoc|].
        split; [rewrite visits_app, Hv1; simpl; lia|].
        apply Forall_app. split; [assumption|]. repeat constructor.
    + unfold ret at 1.
      destruct (IH (count - 1)%Z (iterated it (obj w)) w1 ltac:(lia))
        as (evs2 & Hlog2 & Hv2 & Hok2).
      exists (evs2 ++ [Visited v]).
      split; [rewrite Hlog2; simpl; now rewrite <- app_assoc|].
      split; [rewrite visits_app; simpl; lia|].
      apply Forall_app. split; [assumption|]. repeat constructor.
Qed.

Lemma DeleteExpired_log (now : Z) (order : list Key) (w : worldT) :
  (forall s n, (0 < n)%Z -> (0 <= Intn s n < n)%Z) ->
  exists evs,
    log (world_of (DeleteExpired run Intn now order w)) = evs ++ log w /\
    (forall n w0, Len w = Ret n w0 -> (Z.of_nat (visits evs) <= n)%Z) /\
    Forall (removal_of_stale now) evs.
Proof.
  intros HIntn.
  assert (Hnil : forall o : outcome unit,
            DeleteExpired run Intn now order w = o ->
            log (world_of o) = log w ->
            (forall n w0, Len w = Ret n w0 -> (0 <= n)%Z) ->
            exists evs,
              log (world_of (DeleteExpired run Intn now order w)) = evs ++ log w /\
              (forall n w0, Len w = Ret n w0 -> (Z.of_nat (visits evs) <= n)%Z) /\
              Forall (removal_of_stale now) evs).
  { intros o Ho Hlog Hn. exists []. rewrite Ho. split; [exact Hlog|].
    split; [intros n w0 Hlen; simpl; eapply Hn; eassumption|constructor]. }
  destruct w as [[N l m h] lk lg].
  destruct m as [g|].
  2:{ eapply Hnil; [reflexivity|reflexivity|].
      intros n w0. unfold Len, bind, get_obj, ret. simpl. intros [= <- _]. lia. }
  destruct l as [L|].
  2:{ eapply Hnil; [reflexivity|reflexivity|].
      intros n w0. unfold Len, dl_Len, bind, get_obj, ret, panic. simpl. discriminate. }
  assert (HLen : forall lk', Len (World (mkCache N (Some L) (Some g) h) lk' lg) =
            Ret (Z.of_nat (length L)) (World (mkCache N (Some L) (Some g) h) lk' lg)).
  { intros lk'. apply (Len_eq _ L g); reflexivity. }
  unfold DeleteExpired, bind at 1. rewrite HLen.
  destruct (Z.of_nat (length L) =? 0)%Z eqn:Hz.
  { exists []. split; [reflexivity|].
    split; [intros n w0 [= <- _]; simpl; lia|constructor]. }
  apply Z.eqb_neq in Hz.
  unfold locked. cbn [lock obj log].
  destruct lk.
  { exists []. split; [reflexivity|].
    split; [intros n w0 [= <- _]; simpl; lia|constructor]. }
  unfold bind at 1. rewrite HLen.
  destruct (Z.of_nat (length L) <=? 0)%Z eqn:Hle; [apply Z.leb_le in Hle; lia|].
  unfold bind at 1. unfold get_obj at 1.
  set (wl := World (mkCache N (Some L) (Some g) h) true lg).
  destruct (HIntn now (Z.of_nat (length L)) ltac:(lia)) as [Hlo Hhi].
  destruct (sweep_log now order (Intn now (Z.of_nat (length L)) + 1)%Z
              (iterated ∅ (obj wl)) wl ltac:(lia)) as (evs & Hlog & Hv & Hok).
  exists evs. split.
  - destruct (sweep run now order _ _ wl); exact Hlog.
  - split; [|exact Hok]. intros n w0 [= <- _]. lia.
Qed.

(** ** The sweep: what it leaves, with callbacks that keep off the cache *)

Lemma detached_consistent (c : cacheT) (k : Key) (v : eptr) (kv : entryT) :
  consistent c ->
  index (cache c) k = Some v ->
  mem c !! v = Some kv ->
  consistent (detached v kv c) /\
  exists L g, dl c = Some L /\ cache c = Some g /\
    dl (detached v kv c) = Some (unlink v L) /\
    cache (detached v kv c) = Some (delete k g).
Proof.
  intros Hc Hk Hm.
  destruct (consistent_lookup _ _ _ Hc Hk) as (L & g & kv0 & HL & Hg & Hgk & Hin & Hnd & Hm0 & Hkey).
  assert (kv0 = kv) by congruence. subst kv0.
  assert (Hdl : dl (detached v kv c) = Some (unlink v L))
    by (unfold detached, list_Remove; simpl; now rewrite HL).
  assert (Hca : cache (detached v kv c) = Some (delete k g))
    by (unfold detached, map_delete; simpl; now rewrite Hg, Hkey).
  split; [|exists L, g; auto].
  split.
  - rewrite Hdl, Hca. split; discriminate.
  - rewrite Hdl. intros L' [= <-]. now apply NoDup_unlink.
  - rewrite Hdl, Hca. simpl. intros k' e' Hk'.
    apply lookup_delete_Some in Hk' as [Hne Hk'].
    assert (Hi : index (cache c) k' = Some e') by (rewrite Hg; exact Hk').
    destruct (cons_index c Hc k' e' Hi) as [(L0 & HL0 & Hin0) (kv' & Hm' & Hkey')].
    assert (L0 = L) by congruence. subst L0.
    split.
    + exists (unlink v L). split; [reflexivity|].
      rewrite elem_of_unlink. split; [assumption|].
      intros ->. apply Hne. congruence.
    + exists kv'. split; assumption.
  - rewrite Hdl, Hca. simpl. intros L' e' [= <-] Hin'.
    apply elem_of_unlink in Hin' as [Hin' Hne].
    destruct (cons_list c Hc L e' HL Hin') as (kv' & Hm' & Hi').
    exists kv'. split; [assumption|].
    rewrite Hg in Hi'. simpl in Hi'.
    rewrite lookup_delete_ne; [assumption|].
    intros Heq. apply Hne. rewrite <- Heq in Hi'. congruence.
Qed.

Section Inert.

Hypothesis run_inert : forall f k v c, run f k v c = Returns c.

Lemma removeElement_inert (e : eptr) (w : worldT) (kv : entryT) :
  mem (obj w) !! e = Some kv ->
  exists lg,
    removeElement run e w = Ret tt (World (detached e kv (obj w)) (lock w) lg).
Proof.
  intros Hm. rewrite (removeElement_eq e w kv Hm).
  destruct (OnEvicted kv) as [f|]; [rewrite run_inert|]; eexists; reflexivity.
Qed.

Lemma sweep_inert (now : Z) (order : list Key) :
  forall (count : Z) (it : gmap Key eptr) (w : worldT) (g : gmap Key eptr),
    consistent (obj w) ->
    cache (obj w) = Some g ->
    exists w',
      sweep run now order count it w = Ret tt w' /\
      lock w' = lock w /\
      consistent (obj w') /\
      (exists g', cache (obj w') = Some g') /\
      mem (obj w') = mem (obj w) /\
      MaxEntries (obj w') = MaxEntries (obj w) /\
      (forall e kv,
         index (cache (obj w)) (key kv) = Some e ->
         mem (obj w) !! e = Some kv ->
         ¬ stale now kv ->
         index (cache (obj w')) (key kv) = Some e) /\
      (forall k e,
         index (cache (obj w')) k = Some e -> index (cache (obj w)) k = Some e).
Proof.
  induction order as [|k rest IH]; intros count it w g Hc Hg.
  - exists w. split; [reflexivity|]. split; [reflexivity|].
    split; [assumption|]. split; [exists g; assumption|].
    split; [reflexivity|]. split; [reflexivity|]. split; auto.
  - simpl. unfold bind at 1. unfold get_obj at 1.
    replace (iterated it (obj w)) with g by (unfold iterated; now rewrite Hg).
    destruct (g !! k) as [v|] eqn:Hk; [|eapply IH; eassumption].
    destruct (count =? 0)%Z.
    { exists w. split; [reflexivity|]. split; [reflexivity|].
      split; [assumption|]. split; [exists g; assumption|].
      split; [reflexivity|]. split; [reflexivity|]. split; auto. }
    unfold bind at 1. unfold emit at 1.
    set (w1 := World (obj w) (lock w) (Visited v :: log w)).
    assert (Hi : index (cache (obj w)) k = Some v) by (rewrite Hg; exact Hk).
    destruct (cons_index _ Hc k v Hi) as [_ (kv0 & Hm0 & Hkey0)].
    unfold bind at 1. unfold deref at 1.
    change (mem (obj w1)) with (mem (obj w)). rewrite Hm0.
    unfold bind at 1.
    destruct ((0 <? Expiration kv0)%Z && (Expiration kv0 <? now)%Z) eqn:Hst.
    + apply andb_true_iff in Hst as [H1 H2].
      apply Z.ltb_lt in H1. apply Z.ltb_lt in H2.
      destruct (removeElement_inert v w1 kv0 Hm0) as (lg & Hrm).
      rewrite Hrm.
      destruct (detached_consistent (obj w) k v kv0 Hc Hi Hm0)
        as (Hc2 & L & g0 & HL & Hg0 & Hdl2 & Hca2).
      assert (g0 = g) by congruence. subst g0.
      set (w2 := World (detached v kv0 (obj w1)) (lock w1) lg).
      destruct (IH (count - 1)%Z g w2 (delete k g) Hc2 Hca2)
        as (w' & Hsw & Hlk & Hc' & Hg' & Hmem & Hmax & Hkeep & Hsub).
      exists w'. split; [exact Hsw|].
      split; [exact Hlk|]. split; [exact Hc'|]. split; [exact Hg'|].
      split; [exact Hmem|]. split; [exact Hmax|]. split.
      * intros e kv Hie Hme Hns. apply Hkeep; [|exact Hme|exact Hns].
        change (obj w2) with (detached v kv0 (obj w)). rewrite Hca2. simpl.
        rewrite Hg in Hie. simpl in Hie.
        rewrite lookup_delete_ne; [exact Hie|].
        intros Heq. rewrite <- Heq in Hie.
        assert (e = v) by congruence. subst e.
        assert (kv = kv0) by congruence. subst kv.
        apply Hns. split; assumption.
      * intros k' e' Hi'. apply Hsub in Hi'.
        change (obj w2) with (detached v kv0 (obj w)) in Hi'.
        rewrite Hca2 in Hi'. simpl in Hi'.
        apply lookup_delete_Some in Hi' as [_ Hi'].
        rewrite Hg. exact Hi'.
    + unfold ret at 1.
      destruct (IH (count - 1)%Z g w1 g Hc Hg)
        as (w' & Hsw & Hlk & Hc' & Hg' & Hmem & Hmax & Hkeep & Hsub).
      exists w'. split; [exact Hsw|]. split; [exact Hlk|].
      split; [exact Hc'|]. split; [exact Hg'|]. split; [exact Hmem|].
      split; [exact Hmax|]. split; [exact Hkeep|exact Hsub].
Qed.

Lemma DeleteExpired_inert (now : Z) (order : list Key) (w : worldT) :
  idle w ->
  exists w',
    DeleteExpired run Intn now order w = Ret tt w' /\
    idle w' /\
    mem (obj w') = mem (obj w) /\
    (forall e kv,
       index (cache (obj w)) (key kv) = Some e ->
       mem (obj w) !! e = Some kv ->
       ¬ stale now kv ->
       index (cache (obj w')) (key kv) = Some e) /\
    (forall k e,
       index (cache (obj w')) k = Some e -> index (cache (obj w)) k = Some e).
Proof.
  intros [Hl Hc].
  assert (Hsame : forall o : outcome unit, o = Ret tt w ->
    exists w', o = Ret tt w' /\ idle w' /\
      mem (obj w') = mem (obj w) /\
      (forall e kv, index (cache (obj w)) (key kv) = Some e ->
         mem (obj w) !! e = Some kv -> ¬ stale now kv ->
         index (cache (obj w')) (key kv) = Some e) /\
      (forall k e, index (cache (obj w')) k = Some e ->
         index (cache (obj w)) k = Some e)).
  { intros o Heq. exists w. split; [exact Heq|]. split; [split; assumption|].
    split; [reflexivity|]. split; auto. }
  assert (Hcase : cache (obj w) = None \/
            exists L g, dl (obj w) = Some L /\ cache (obj w) = Some g).
  { destruct (cache (obj w)) as [g|] eqn:Hg; [right|now left].
    destruct (dl (obj w)) as [L|] eqn:HL; [now exists L, g|].
    apply (cons_nil _ Hc) in HL. congruence. }
  destruct Hcase as [Hg|(L & g & HL & Hg)].
  { apply Hsame. unfold DeleteExpired, bind at 1. unfold Len, bind, get_obj, ret.
    rewrite Hg. reflexivity. }
  unfold DeleteExpired, bind at 1. rewrite (Len_eq w L g HL Hg).
  destruct (Z.of_nat (length L) =? 0)%Z eqn:Hz.
  { apply Hsame. reflexivity. }
  apply Z.eqb_neq in Hz.
  unfold locked. rewrite Hl.
  set (wl := World (obj w) true (log w)).
  unfold bind at 1. rewrite (Len_eq wl L g HL Hg).
  destruct (Z.of_nat (length L) <=? 0)%Z eqn:Hle; [apply Z.leb_le in Hle; lia|].
  unfold bind at 1. unfold get_obj at 1.
  destruct (sweep_inert now order (Intn now (Z.of_nat (length L)) + 1)%Z
              (iterated ∅ (obj wl)) wl g Hc Hg)
    as (w' & Hsw & Hlk & Hc' & Hg' & Hmem & Hmax & Hkeep & Hsub).
  rewrite Hsw. eexists. split; [reflexivity|].
  split; [split; [reflexivity|exact Hc']|].
  split; [exact Hmem|]. split; [exact Hkeep|exact Hsub].
Qed.

End Inert.

(** C4.  One call of [DeleteExpired], with a random source that keeps below
    its bound as [rand.Intn] does, whatever the callbacks do: the call
    visits at most [Len()] elements, and every element it hands to
    [removeElement] has an expiration that is set and smaller than the
    clock of the sweep.  With callbacks that leave the cache alone, on an
    idle cache, the call returns, and every entry whose expiration is not
    set or has not passed is still under its key in the map and in the
    list, unchanged; no key is new. *)
Theorem sweep_bounded_and_sound (now : Z) (order : list Key) (w : worldT) :
  (forall s n, (0 < n)%Z -> (0 <= Intn s n < n)%Z) ->
  exists evs,
    log (world_of (DeleteExpired run Intn now order w)) = evs ++ log w /\
    (forall n w0, Len w = Ret n w0 -> (Z.of_nat (visits evs) <= n)%Z) /\
    (forall e kv, Removed e kv ∈ evs ->
       (0 < Expiration kv)%Z /\ (Expiration kv < now)%Z) /\
    ((forall f k v c, run f k v c = Returns c) ->
     idle w ->
     exists w',
       DeleteExpired run Intn now order w = Ret tt w' /\
       idle w' /\
       mem (obj w') = mem (obj w) /\
       (forall e kv,
          index (cache (obj w)) (key kv) = Some e ->
          mem (obj w) !! e = Some kv ->
          ¬ ((0 < Expiration kv)%Z /\ (Expiration kv < now)%Z) ->
          index (cache (obj w')) (key kv) = Some e /\
          exists L', dl (obj w') = Some L' /\ e ∈ L') /\
       (forall k e,
          index (cache (obj w')) k = Some e -> index (cache (obj w)) k = Some e)).
Proof.
  intros HIntn.
  destruct (DeleteExpired_log now order w HIntn) as (evs & Hlog & Hv & Hok).
  exists evs. split; [exact Hlog|]. split; [exact Hv|]. split.
  - intros e kv Hin. rewrite Forall_forall in Hok. exact (Hok _ Hin).
  - intros Hinert Hidle.
    destruct (DeleteExpired_inert Hinert now order w Hidle)
      as (w' & Heq & Hidle' & Hmem & Hkeep & Hsub).
    exists w'. split; [exact Heq|]. split; [exact Hidle'|].
    split; [exact Hmem|]. split; [|exact Hsub].
    intros e kv Hi Hm Hns.
    assert (Hi' : index (cache (obj w')) (key kv) = Some e)
      by (apply Hkeep; assumption).
    split; [exact Hi'|].
    destruct Hidle' as [_ Hc'].
    destruct (cons_index _ Hc' _ _ Hi') as [HL' _]. exact HL'.
Qed.

(** ** Consistency is kept *)

Lemma push_consistent (c : cacheT) (L : list eptr) (g : gmap Key eptr)
    (kv : entryT) :
  consistent c ->
  dl c = Some L ->
  cache c = Some g ->
  g !! key kv = None ->
  consistent (mkCache (MaxEntries c) (Some (length (mem c) :: L))
                (Some (<[key kv := length (mem c)]> g)) (mem c ++ [kv])).
Proof.
  intros Hc HL Hg Hk.
  assert (Hlt : forall e, e ∈ L -> e < length (mem c)).
  { intros e He. destruct (cons_list c Hc L e HL He) as (kv' & Hm' & _).
    eapply lookup_lt_Some; eassumption. }
  assert (Hnew : (mem c ++ [kv]) !! length (mem c) = Some kv).
  { rewrite lookup_app_r by lia. now rewrite Nat.sub_diag. }
  split; simpl.
  - split; discriminate.
  - intros L' [= <-]. constructor.
    + intros Hin. apply Hlt in Hin. lia.
    + eapply cons_nodup; eassumption.
  - intros k' e' Hk'. apply lookup_insert_Some in Hk' as [[<- <-]|[Hne Hk']].
    + split; [exists (length (mem c) :: L); split; [reflexivity|now left]|].
      exists kv. split; [exact Hnew|reflexivity].
    + assert (Hi : index (cache c) k' = Some e') by (rewrite Hg; exact Hk').
      destruct (cons_index c Hc k' e' Hi) as [(L0 & HL0 & Hin0) (kv' & Hm' & Hkey')].
      assert (L0 = L) by congruence. subst L0.
      split; [exists (length (mem c) :: L); split; [reflexivity|now right]|].
      exists kv'. split; [|assumption].
      rewrite lookup_app_l by (eapply lookup_lt_Some; eassumption). assumption.
  - intros L' e' [= <-] Hin'. apply elem_of_cons in Hin' as [->|Hin'].
    + exists kv. split; [exact Hnew|apply lookup_insert_eq].
    + destruct (cons_list c Hc L e' HL Hin') as (kv' & Hm' & Hi').
      exists kv'. split.
      * rewrite lookup_app_l by (eapply lookup_lt_Some; eassumption). assumption.
      * rewrite Hg in Hi'. simpl in Hi'.
        rewrite lookup_insert_ne; [assumption|]. intros Heq. congruence.
Qed.

(** An insert of a new key within the capacity returns and leaves an idle
    cache that holds the new entry in front. *)
Lemma add_fresh_idle (now : Z) (k : Key) (v : Value) (d : Z) (cb : option fptr)
    (w : worldT) (L : list eptr) (g : gmap Key eptr) :
  idle w ->
  dl (obj w) = Some L ->
  cache (obj w) = Some g ->
  g !! k = None ->
  (MaxEntries (obj w) = 0 \/ Z.of_nat (S (length L)) <= MaxEntries (obj w))%Z ->
  add run now k v d cb w =
    Ret tt (World (mkCache (MaxEntries (obj w))
                     (Some (length (mem (obj w)) :: L))
                     (Some (<[k := length (mem (obj w))]> g))
                     (mem (obj w) ++ [Entry k v (deadline now d) cb]))
              false (log w)) /\
  idle (World (mkCache (MaxEntries (obj w))
                 (Some (length (mem (obj w)) :: L))
                 (Some (<[k := length (mem (obj w))]> g))
                 (mem (obj w) ++ [Entry k v (deadline now d) cb]))
          false (log w)).
Proof.
  intros [Hl Hc] HL Hg Hk Hcap. split.
  - rewrite (add_fresh now k v d cb w L g) by assumption. cbv zeta.
    destruct (MaxEntries (obj w) =? 0)%Z eqn:Hz; [reflexivity|].
    destruct (MaxEntries (obj w) <? Z.of_nat (S (length L)))%Z eqn:Hlt; [|reflexivity].
    apply Z.ltb_lt in Hlt. apply Z.eqb_neq in Hz. lia.
  - split; [reflexivity|].
    apply (push_consistent (obj w) L g (Entry k v (deadline now d) cb)); assumption.
Qed.

(** The capacity bound over the inserts that return: an insert into an idle
    cache within its capacity [N > 0] that returns leaves it within [N]. *)
Lemma add_returns_within_capacity (now : Z) (k : Key) (v : Value) (d : Z)
    (cb : option fptr) (w w' : worldT) (L : list eptr) :
  idle w ->
  dl (obj w) = Some L ->
  (0 < MaxEntries (obj w))%Z ->
  (Z.of_nat (length L) <= MaxEntries (obj w))%Z ->
  add run now k v d cb w = Ret tt w' ->
  exists L', dl (obj w') = Some L' /\
    (Z.of_nat (length L') <= MaxEntries (obj w'))%Z /\
    MaxEntries (obj w') = MaxEntries (obj w) /\ idle w'.
Proof.
  intros Hidle HL Hpos Hle Hadd. pose proof Hidle as [Hl Hc].
  destruct (cache (obj w)) as [g|] eqn:Hg.
  2:{ apply (cons_nil _ Hc) in Hg. congruence. }
  destruct (g !! k) as [e|] eqn:Hk.
  - assert (Hi : index (cache (obj w)) k = Some e) by (rewrite Hg; exact Hk).
    destruct (consistent_lookup _ _ _ Hc Hi) as (L0 & g0 & kv & HL0 & _ & _ & Hin & Hnd & Hm & Hkey).
    assert (L0 = L) by congruence. subst L0.
    rewrite (add_present now k v d cb w g e kv Hl Hg Hk Hm) in Hadd.
    injection Hadd as <-. rewrite HL. simpl.
    rewrite decide_True by assumption.
    exists (e :: unlink e L). split; [reflexivity|].
    split; [simpl length; rewrite (length_unlink e L) by assumption; assumption|].
    split; [reflexivity|]. split; [reflexivity|].
    apply (update_consistent (obj w) L e kv); auto.
  - rewrite (add_fresh now k v d cb w L g) in Hadd by assumption. cbv zeta in Hadd.
    destruct (MaxEntries (obj w) =? 0)%Z eqn:Hz; [apply Z.eqb_eq in Hz; lia|].
    destruct (MaxEntries (obj w) <? Z.of_nat (S (length L)))%Z eqn:Hlt; [discriminate|].
    apply Z.ltb_ge in Hlt. injection Hadd as <-.
    eexists. split; [reflexivity|]. simpl. split; [lia|]. split; [reflexivity|].
    split; [reflexivity|].
    apply (push_consistent (obj w) L g (Entry k v (deadline now d) cb)); assumption.
Qed.

(** * Further properties of the operations *)

Lemma consistent_cases (c : cacheT) :
  consistent c ->
  (dl c = None /\ cache c = None) \/
  (exists L g, dl c = Some L /\ cache c = Some g).
Proof.
  intros Hc. destruct (cache c) as [g|] eqn:Hg.
  - right. destruct (dl c) as [L|] eqn:HL; [now exists L, g|].
    apply (cons_nil c Hc) in HL. congruence.
  - left. split; [|reflexivity]. now apply (cons_nil c Hc).
Qed.

Lemma unlink_last (L : list eptr) (e : eptr) :
  NoDup (L ++ [e]) -> unlink e (L ++ [e]) = L.
Proof.
  intros Hnd. apply NoDup_app in Hnd as (_ & Hdis & _).
  unfold unlink. rewrite filter_app.
  rewrite filter_cons_False by (intros Hf; now apply Hf).
  rewrite filter_nil, app_nil_r.
  fold (unlink e L). apply unlink_absent.
  intros Hin. apply (Hdis e Hin). now left.
Qed.

(** ** Removing *)

(** X1.  [Remove] of a key that is not in the map returns and changes
    nothing, whether the cache is empty, cleared or holds other keys. *)
Theorem Remove_absent (k : Key) (w : worldT) :
  lock w = false ->
  index (cache (obj w)) k = None ->
  Remove run k w = Ret tt w.
Proof.
  intros Hl Hk. destruct w as [[N l m h] lk lg]. simpl in *. subst lk.
  unfold Remove, bind, get_obj, locked, ret. simpl.
  destruct m as [g|]; [|reflexivity]. simpl in *. rewrite Hk. reflexivity.
Qed.

Section Quiet.

Hypothesis run_quiet : quiet run.

Lemma removeElement_quiet (e : eptr) (w : worldT) (kv : entryT) :
  mem (obj w) !! e = Some kv ->
  removeElement run e w =
    Ret tt (World (detached e kv (obj w)) (lock w) (removal_events e kv ++ log w)).
Proof.
  intros Hm. rewrite (removeElement_eq e w kv Hm). unfold removal_events.
  destruct (OnEvicted kv) as [f|]; [rewrite run_quiet|]; reflexivity.
Qed.

(** What is left when an element of the map is taken out. *)
Lemma detached_frame (c : cacheT) (k : Key) (e : eptr) (kv : entryT)
    (L : list eptr) :
  consistent c ->
  dl c = Some L ->
  index (cache c) k = Some e ->
  mem c !! e = Some kv ->
  consistent (detached e kv c) /\
  dl (detached e kv c) = Some (unlink e L) /\
  S (length (unlink e L)) = length L /\
  index (cache (detached e kv c)) k = None /\
  (forall k', k' ≠ k ->
     index (cache (detached e kv c)) k' = index (cache c) k') /\
  mem (detached e kv c) = mem c /\
  MaxEntries (detached e kv c) = MaxEntries c.
Proof.
  intros Hc HL Hk Hm.
  destruct (consistent_lookup _ _ _ Hc Hk)
    as (L0 & g & kv0 & HL0 & Hg & Hgk & Hin & Hnd & Hm0 & Hkey).
  assert (L0 = L) by congruence. assert (kv0 = kv) by congruence. subst L0 kv0.
  destruct (detached_consistent c k e kv Hc Hk Hm)
    as (Hc' & L1 & g1 & HL1 & Hg1 & Hdl & Hca).
  assert (L1 = L) by congruence. assert (g1 = g) by congruence. subst L1 g1.
  split; [exact Hc'|]. split; [exact Hdl|].
  split; [now apply length_unlink|].
  split; [rewrite Hca; simpl; apply lookup_delete_eq|].
  split; [|split; reflexivity].
  intros k' Hne. rewrite Hca, Hg. simpl. apply lookup_delete_ne. congruence.
Qed.

(** X2.  [Remove] of a key that is in the map, with callbacks that keep off
    the cache: the call returns, the key is gone, the size is one less, every
    other key is still on its element, no stored entry is changed, and the
    log shows the removal and, when the entry has a callback, exactly one
    call of it with the key and the value. *)
Theorem Remove_present (k : Key) (w : worldT) (L : list eptr) (e : eptr)
    (kv : entryT) :
  idle w ->
  dl (obj w) = Some L ->
  index (cache (obj w)) k = Some e ->
  mem (obj w) !! e = Some kv ->
  exists w',
    Remove run k w = Ret tt w' /\
    idle w' /\
    index (cache (obj w')) k = None /\
    dl (obj w') = Some (unlink e L) /\
    Len w = Ret (Z.of_nat (length L)) w /\
    Len w' = Ret (Z.of_nat (length L) - 1)%Z w' /\
    (forall k', k' ≠ k -> index (cache (obj w')) k' = index (cache (obj w)) k') /\
    mem (obj w') = mem (obj w) /\
    log w' = removal_events e kv ++ log w /\
    fired (log w') =
      match OnEvicted kv with
      | Some f => (f, k, value kv) :: fired (log w)
      | None => fired (log w)
      end.
Proof.
  intros [Hl Hc] HL Hk Hm.
  destruct (consistent_lookup _ _ _ Hc Hk)
    as (L0 & g & kv0 & HL0 & Hg & Hgk & Hin & Hnd & Hm0 & Hkey).
  assert (kv0 = kv) by congruence. subst kv0.
  destruct (detached_frame (obj w) k e kv L Hc HL Hk Hm)
    as (Hc' & Hdl & Hlen & Hgone & Hothers & Hmem & Hmax).
  assert (Hcache' : exists g', cache (detached e kv (obj w)) = Some g').
  { unfold detached, map_delete. simpl. rewrite Hg. simpl. eauto. }
  destruct Hcache' as (g' & Hg').
  exists (World (detached e kv (obj w)) false (removal_events e kv ++ log w)).
  split.
  { destruct w as [c lk lg]. simpl in *. subst lk.
    unfold Remove, bind, get_obj, locked. simpl. rewrite Hg. simpl.
    unfold index. rewrite Hg. simpl. rewrite Hgk.
    rewrite (removeElement_quiet e _ kv) by assumption. reflexivity. }
  split; [split; [reflexivity|exact Hc']|].
  split; [exact Hgone|]. split; [exact Hdl|].
  split; [eapply Len_eq; eassumption|].
  split.
  { erewrite Len_eq; [|exact Hdl|exact Hg']. f_equal. lia. }
  split; [exact Hothers|]. split; [exact Hmem|]. split; [reflexivity|].
  simpl. unfold removal_events. rewrite <- Hkey.
  destruct (OnEvicted kv); reflexivity.
Qed.

(** ** Evicting the oldest *)

Lemma RemoveOldest_last (w : worldT) (L : list eptr) (e : eptr) (kv : entryT) :
  idle w ->
  dl (obj w) = Some L ->
  last L = Some e ->
  mem (obj w) !! e = Some kv ->
  RemoveOldest run w =
    Ret tt (World (detached e kv (obj w)) false (removal_events e kv ++ log w)) /\
  index (cache (obj w)) (key kv) = Some e.
Proof.
  intros [Hl Hc] HL Hlast Hm.
  assert (Hin : e ∈ L).
  { apply last_Some in Hlast as (L' & ->). apply elem_of_app. right. now left. }
  destruct (cons_list _ Hc L e HL Hin) as (kv0 & Hm0 & Hi).
  assert (kv0 = kv) by congruence. subst kv0.
  split; [|exact Hi].
  destruct (consistent_lookup _ _ _ Hc Hi) as (_ & g & _ & _ & Hg & _).
  destruct w as [[N l m h] lk lg]. simpl in *. subst lk l m.
  unfold RemoveOldest, bind, get_obj, locked, dl_Back, ret. simpl.
  rewrite Hlast.
  rewrite (removeElement_quiet e _ kv) by assumption. reflexivity.
Qed.

(** X3.  [RemoveOldest] called by a user, with callbacks that keep off the
    cache.  On a cleared or empty cache it returns and changes nothing.  On
    a cache whose list ends with [e] it returns, takes out exactly that
    element and its key, and leaves the rest of the list in its order and
    every other key on its element. *)
Theorem RemoveOldest_takes_tail (w : worldT) :
  idle w ->
  (cache (obj w) = None -> RemoveOldest run w = Ret tt w) /\
  (dl (obj w) = Some [] -> RemoveOldest run w = Ret tt w) /\
  (forall L e kv,
     dl (obj w) = Some (L ++ [e]) ->
     mem (obj w) !! e = Some kv ->
     exists w',
       RemoveOldest run w = Ret tt w' /\
       idle w' /\
       dl (obj w') = Some L /\
       index (cache (obj w)) (key kv) = Some e /\
       index (cache (obj w')) (key kv) = None /\
       (forall k', k' ≠ key kv ->
          index (cache (obj w')) k' = index (cache (obj w)) k') /\
       mem (obj w') = mem (obj w) /\
       log w' = removal_events e kv ++ log w).
Proof.
  intros Hidle. pose proof Hidle as [Hl Hc]. split; [|split].
  - intros Hnil. unfold RemoveOldest, bind, get_obj, ret. now rewrite Hnil.
  - intros HL.
    destruct (consistent_cases _ Hc) as [[Hd _]|(L & g & HL' & Hg)]; [congruence|].
    destruct w as [[N l m h] lk lg]. simpl in *. subst lk l m.
    unfold RemoveOldest, bind, get_obj, locked, dl_Back, ret. simpl.
    reflexivity.
  - intros L e kv HL Hm.
    assert (Hlast : last (L ++ [e]) = Some e) by apply last_snoc.
    destruct (RemoveOldest_last w (L ++ [e]) e kv Hidle HL Hlast Hm) as [Heq Hi].
    destruct (detached_frame (obj w) (key kv) e kv (L ++ [e]) Hc HL Hi Hm)
      as (Hc' & Hdl & Hlen & Hgone & Hothers & Hmem & Hmax).
    eexists. split; [exact Heq|].
    split; [split; [reflexivity|exact Hc']|].
    split.
    { cbn [obj]. rewrite Hdl. f_equal. apply unlink_last.
      exact (cons_nodup _ Hc _ HL). }
    split; [exact Hi|]. split; [exact Hgone|]. split; [exact Hothers|].
    split; [exact Hmem|reflexivity].
Qed.

End Quiet.

(** ** The size *)

Lemma list_length_size (c : cacheT) (L : list eptr) (g : gmap Key eptr) :
  consistent c -> dl c = Some L -> cache c = Some g -> length L = size g.
Proof.
  intros Hc HL Hg.
  rewrite <- length_map_to_list.
  rewrite <- (length_fmap snd (map_to_list g)).
  apply Permutation_length. apply NoDup_Permutation.
  - exact (cons_nodup _ Hc L HL).
  - apply NoDup_fmap_2_strong; [|apply NoDup_map_to_list].
    intros [k1 e1] [k2 e2] H1 H2 Heq. simpl in Heq. subst e2.
    apply elem_of_map_to_list in H1. apply elem_of_map_to_list in H2.
    assert (Hi1 : index (cache c) k1 = Some e1) by (rewrite Hg; exact H1).
    assert (Hi2 : index (cache c) k2 = Some e1) by (rewrite Hg; exact H2).
    destruct (cons_index _ Hc _ _ Hi1) as [_ (kv1 & Hm1 & Hk1)].
    destruct (cons_index _ Hc _ _ Hi2) as [_ (kv2 & Hm2 & Hk2)].
    f_equal. congruence.
  - intros e. split.
    + intros Hin. destruct (cons_list _ Hc L e HL Hin) as (kv & Hm & Hi).
      rewrite Hg in Hi. simpl in Hi.
      apply list_elem_of_fmap. exists (key kv, e). split; [reflexivity|].
      now apply elem_of_map_to_list.
    + intros Hin. apply list_elem_of_fmap in Hin as ([k e'] & -> & Hin).
      apply elem_of_map_to_list in Hin. simpl.
      assert (Hi : index (cache c) k = Some e') by (rewrite Hg; exact Hin).
      destruct (cons_index _ Hc _ _ Hi) as [(L' & HL' & Hin') _].
      congruence.
Qed.

(** X6.  In a consistent cache the list and the map have the same number of
    entries, so [Len] counts the keys; and two elements of the list never
    carry the same key. *)
Theorem Len_counts_keys (w : worldT) (L : list eptr) (g : gmap Key eptr) :
  consistent (obj w) ->
  dl (obj w) = Some L ->
  cache (obj w) = Some g ->
  Len w = Ret (Z.of_nat (size g)) w /\
  length L = size g /\
  (forall e1 e2 kv1 kv2,
     e1 ∈ L -> e2 ∈ L ->
     mem (obj w) !! e1 = Some kv1 -> mem (obj w) !! e2 = Some kv2 ->
     key kv1 = key kv2 -> e1 = e2).
Proof.
  intros Hc HL Hg.
  pose proof (list_length_size (obj w) L g Hc HL Hg) as Hlen.
  split; [rewrite <- Hlen; eapply Len_eq; eassumption|].
  split; [exact Hlen|].
  intros e1 e2 kv1 kv2 H1 H2 Hm1 Hm2 Hkey.
  destruct (cons_list _ Hc L e1 HL H1) as (kv1' & Hm1' & Hi1).
  destruct (cons_list _ Hc L e2 HL H2) as (kv2' & Hm2' & Hi2).
  assert (kv1' = kv1) by congruence. assert (kv2' = kv2) by congruence.
  subst kv1' kv2'. rewrite Hkey in Hi1. congruence.
Qed.

(** ** The mutex *)

(** X11.  While the mutex is held, every locking method blocks and changes
    nothing: [add] always, [Get], [Remove] and [RemoveOldest] unless the
    cache is cleared, [DeleteExpired] unless it is cleared or empty.  [Len]
    and [Clear] do not take the mutex and return. *)
Theorem held_mutex_blocks (w : worldT) (L : list eptr) (g : gmap Key eptr)
    (now : Z) (k : Key) (v : Value) (d : Z) (cb : option fptr)
    (order : list Key) :
  lock w = true ->
  dl (obj w) = Some L ->
  cache (obj w) = Some g ->
  add run now k v d cb w = Block w /\
  Get zero run now k w = Block w /\
  Remove run k w = Block w /\
  RemoveOldest run w = Block w /\
  (L ≠ [] -> DeleteExpired run Intn now order w = Block w) /\
  (L = [] -> DeleteExpired run Intn now order w = Ret tt w) /\
  Len w = Ret (Z.of_nat (length L)) w /\
  Clear w = Ret tt (World (mkCache (MaxEntries (obj w)) None None (mem (obj w)))
                      true (log w)).
Proof.
  intros Hl HL Hg. destruct w as [[N l m h] lk lg]. simpl in *. subst lk l m.
  split; [reflexivity|]. split; [reflexivity|]. split; [reflexivity|].
  split; [reflexivity|]. split; [|split; [|split; reflexivity]].
  - intros Hne. destruct L as [|e L]; [congruence|]. reflexivity.
  - intros ->. reflexivity.
Qed.

(** ** Inserting, then reading *)

Lemma wrap64_id (z : Z) :
  (- 2 ^ 63 <= z < 2 ^ 63)%Z -> wrap64 z = z.
Proof.
  intros Hz. unfold wrap64.
  rewrite Z.mod_small by lia. lia.
Qed.

Lemma emptied_idle (w : worldT) : lock w = false -> idle (emptied w).
Proof.
  intros Hl. split; [exact Hl|]. split; simpl.
  - split; discriminate.
  - intros L [= <-]. constructor.
  - intros k e Hk. rewrite lookup_empty in Hk. discriminate.
  - intros L e [= <-] He. inversion He.
Qed.

(** An insert into a cleared cache is an insert into the empty cache. *)
Lemma add_cleared (now : Z) (k : Key) (v : Value) (d : Z) (cb : option fptr)
    (w : worldT) :
  lock w = false ->
  cache (obj w) = None ->
  add run now k v d cb w = add run now k v d cb (emptied w).
Proof.
  intros Hl Hc. destruct w as [[N l m h] lk lg]. simpl in *. subst lk m.
  reflexivity.
Qed.

Lemma promote_consistent (c : cacheT) (L : list eptr) (e : eptr) :
  consistent c -> dl c = Some L -> e ∈ L ->
  consistent (set_dl (Some (e :: unlink e L)) c).
Proof.
  intros Hc HL Hin.
  destruct (cons_list c Hc L e HL Hin) as (kv & Hm & _).
  pose proof (update_consistent c L e kv kv Hc HL Hin Hm eq_refl) as Hu.
  rewrite list_insert_id in Hu by exact Hm.
  destruct c as [N l m h]. exact Hu.
Qed.

(** What an insert that returns leaves: the key on the first element of the
    list, with the value and the expiration of the call, every other key
    where it was, and nothing logged. *)
Lemma add_returns (now : Z) (k : Key) (v : Value) (d : Z) (cb : option fptr)
    (w w1 : worldT) :
  idle w ->
  add run now k v d cb w = Ret tt w1 ->
  idle w1 /\
  log w1 = log w /\
  MaxEntries (obj w1) = MaxEntries (obj w) /\
  (forall k', k' ≠ k -> index (cache (obj w1)) k' = index (cache (obj w)) k') /\
  exists e L1 old,
    dl (obj w1) = Some (e :: L1) /\
    index (cache (obj w1)) k = Some e /\
    mem (obj w1) !! e = Some (Entry k v (deadline now d) old).
Proof.
  assert (Hsome : forall (w : worldT) L g,
    idle w -> dl (obj w) = Some L -> cache (obj w) = Some g ->
    add run now k v d cb w = Ret tt w1 ->
    idle w1 /\ log w1 = log w /\ MaxEntries (obj w1) = MaxEntries (obj w) /\
    (forall k', k' ≠ k -> index (cache (obj w1)) k' = index (cache (obj w)) k') /\
    exists e L1 old,
      dl (obj w1) = Some (e :: L1) /\
      index (cache (obj w1)) k = Some e /\
      mem (obj w1) !! e = Some (Entry k v (deadline now d) old)).
  { clear w. intros w L g [Hl Hc] HL Hg Hadd.
    destruct (g !! k) as [e|] eqn:Hk.
    - assert (Hi : index (cache (obj w)) k = Some e) by (rewrite Hg; exact Hk).
      destruct (consistent_lookup _ _ _ Hc Hi)
        as (L0 & g0 & kv & HL0 & _ & _ & Hin & Hnd & Hm & Hkey).
      assert (L0 = L) by congruence. subst L0.
      assert (Hlt : e < length (mem (obj w))) by (eapply lookup_lt_Some; eassumption).
      rewrite (add_present now k v d cb w g e kv Hl Hg Hk Hm) in Hadd.
      injection Hadd as <-. rewrite HL. simpl. rewrite decide_True by assumption.
      split; [split; [reflexivity|]|].
      { apply (update_consistent (obj w) L e kv); auto. }
      split; [reflexivity|]. split; [reflexivity|]. split; [reflexivity|].
      exists e, (unlink e L), (OnEvicted kv).
      split; [reflexivity|]. split; [exact Hi|].
      rewrite list_lookup_insert_eq by assumption. now rewrite Hkey.
    - rewrite (add_fresh now k v d cb w L g Hl HL Hg Hk) in Hadd. cbv zeta in Hadd.
      assert (Heq : w1 = World (mkCache (MaxEntries (obj w))
                            (Some (length (mem (obj w)) :: L))
                            (Some (<[k := length (mem (obj w))]> g))
                            (mem (obj w) ++ [Entry k v (deadline now d) cb]))
                         false (log w)).
      { destruct (MaxEntries (obj w) =? 0)%Z; [now injection Hadd|].
        destruct (MaxEntries (obj w) <? Z.of_nat (S (length L)))%Z;
          [discriminate|now injection Hadd]. }
      subst w1. simpl.
      split; [split; [reflexivity|]|].
      { apply (push_consistent (obj w) L g (Entry k v (deadline now d) cb));
          assumption. }
      split; [reflexivity|]. split; [reflexivity|]. split.
      { intros k' Hne. rewrite Hg. simpl. apply lookup_insert_ne. congruence. }
      exists (length (mem (obj w))), L, cb.
      split; [reflexivity|]. split; [apply lookup_insert_eq|].
      rewrite lookup_app_r by lia. now rewrite Nat.sub_diag. }
  intros Hidle Hadd. pose proof Hidle as [Hl Hc].
  destruct (consistent_cases _ Hc) as [[Hd Hn]|(L & g & HL & Hg)].
  - rewrite (add_cleared now k v d cb w Hl Hn) in Hadd.
    destruct (Hsome (emptied w) [] ∅ (emptied_idle w Hl) eq_refl eq_refl Hadd)
      as (H1 & H2 & H3 & H4 & H5).
    split; [exact H1|]. split; [exact H2|]. split; [exact H3|].
    split; [|exact H5].
    intros k' Hne. rewrite (H4 k' Hne). rewrite Hn. reflexivity.
  - eapply Hsome; eassumption.
Qed.

Lemma deadline_live (now now' d : Z) (k : Key) (v : Value) (old : option fptr) :
  (d <= 0 \/ ((- 2 ^ 63 <= now + d < 2 ^ 63) /\ now' <= now + d))%Z ->
  Expired now' (Entry k v (deadline now d) old) = false.
Proof.
  intros Hd. unfold Expired, deadline. simpl.
  destruct (0 <? d)%Z eqn:Hpos; [|reflexivity].
  apply Z.ltb_lt in Hpos. destruct Hd as [Hd|[Hr Hle]]; [lia|].
  unfold expiry. rewrite wrap64_id by exact Hr.
  destruct (now + d =? 0)%Z; [reflexivity|]. apply Z.ltb_ge. exact Hle.
Qed.

Lemma deadline_passed (now now' d : Z) (k : Key) (v : Value) (old : option fptr) :
  (0 < d)%Z -> (- 2 ^ 63 <= now + d < 2 ^ 63)%Z -> (now + d ≠ 0)%Z ->
  (now + d < now')%Z ->
  Expired now' (Entry k v (deadline now d) old) = true.
Proof.
  intros Hpos Hr Hnz Hlt. unfold Expired, deadline. simpl.
  apply Z.ltb_lt in Hpos. rewrite Hpos.
  unfold expiry. rewrite wrap64_id by exact Hr.
  apply Z.eqb_neq in Hnz. rewrite Hnz. now apply Z.ltb_lt.
Qed.

(** X4.  Insert, then read.  After any insert that returns, through [Add],
    [AddEx] or [AddExWithOnEvicted], on a new key or on one that was there,
    in a cleared cache too, a [Get] of the key returns the value inserted
    with [true], at any time when the insert gave no time to live
    ([d <= 0]) and up to the time [now + d] included when it gave one; and
    that [Get] logs nothing and leaves the map as it is. *)
Theorem insert_then_Get (now now' : Z) (k : Key) (v : Value) (d : Z)
    (cb : option fptr) (w w1 : worldT) :
  idle w ->
  add run now k v d cb w = Ret tt w1 ->
  (d <= 0 \/ ((- 2 ^ 63 <= now + d < 2 ^ 63) /\ now' <= now + d))%Z ->
  exists w2,
    Get zero run now' k w1 = Ret (v, true) w2 /\
    log w2 = log w /\
    cache (obj w2) = cache (obj w1) /\
    mem (obj w2) = mem (obj w1) /\
    idle w2.
Proof.
  intros Hidle Hadd Hd.
  destruct (add_returns now k v d cb w w1 Hidle Hadd)
    as ([Hl1 Hc1] & Hlog & _ & _ & e & L1 & old & HL1 & Hi & Hm).
  destruct (consistent_lookup _ _ _ Hc1 Hi)
    as (L0 & g & _ & HL0 & Hg & Hgk & Hin & _).
  assert (L0 = e :: L1) by congruence. subst L0.
  pose proof (deadline_live now now' d k v old Hd) as Hlive.
  rewrite (Get_live now' k w1 g e _ Hl1 Hg Hgk Hm Hlive).
  eexists. split; [reflexivity|]. simpl.
  split; [exact Hlog|]. split; [reflexivity|]. split; [reflexivity|].
  split; [reflexivity|].
  rewrite HL1. simpl. rewrite decide_True by assumption.
  apply promote_consistent; assumption.
Qed.

Section QuietReads.

Hypothesis run_quiet : quiet run.

Lemma Get_expired_quiet (now : Z) (k : Key) (w : worldT) (e : eptr)
    (kv : entryT) :
  idle w ->
  index (cache (obj w)) k = Some e ->
  mem (obj w) !! e = Some kv ->
  Expired now kv = true ->
  Get zero run now k w =
    Ret (zero, false)
      (World (detached e kv (obj w)) false (removal_events e kv ++ log w)).
Proof.
  intros [Hl Hc] Hk Hm Hx.
  destruct (consistent_lookup _ _ _ Hc Hk)
    as (L & g & kv0 & HL & Hg & Hgk & Hin & _ & Hm0 & Hkey).
  assert (kv0 = kv) by congruence. subst kv0.
  rewrite (Get_expired now k w
             (World (detached e kv (obj w)) true (removal_events e kv ++ log w))
             g e kv Hl Hg Hgk Hm Hx).
  - assert (Hd : index (cache (detached e kv (obj w))) k = None)
      by (rewrite <- Hkey; apply detached_index).
    cbn [obj log]. now rewrite Hd.
  - now rewrite (removeElement_quiet run_quiet e _ kv).
Qed.

(** X5.  Insert with a time to live, then read after it has passed.  After
    an insert with [d > 0] that returns, a [Get] of the key at a time later
    than [now + d] returns [(zero, false)], takes the key out of the map and
    the size down by one, and leaves every other key where it is. *)
Theorem Get_after_ttl (now now' : Z) (k : Key) (v : Value) (d : Z)
    (cb : option fptr) (w w1 : worldT) :
  idle w ->
  add run now k v d cb w = Ret tt w1 ->
  (0 < d)%Z -> (- 2 ^ 63 <= now + d < 2 ^ 63)%Z -> (now + d ≠ 0)%Z ->
  (now + d < now')%Z ->
  exists w2 n,
    Get zero run now' k w1 = Ret (zero, false) w2 /\
    index (cache (obj w2)) k = None /\
    Len w1 = Ret n w1 /\
    Len w2 = Ret (n - 1)%Z w2 /\
    (forall k', k' ≠ k -> index (cache (obj w2)) k' = index (cache (obj w1)) k') /\
    idle w2.
Proof.
  intros Hidle Hadd Hpos Hr Hnz Hlt.
  destruct (add_returns now k v d cb w w1 Hidle Hadd)
    as (Hidle1 & Hlog & _ & _ & e & L1 & old & HL1 & Hi & Hm).
  pose proof Hidle1 as [Hl1 Hc1].
  pose proof (deadline_passed now now' d k v old Hpos Hr Hnz Hlt) as Hx.
  destruct (consistent_lookup _ _ _ Hc1 Hi) as (_ & g & _ & _ & Hg & _).
  destruct (detached_frame (obj w1) k e _ (e :: L1) Hc1 HL1 Hi Hm)
    as (Hc' & Hdl & Hlen & Hgone & Hothers & Hmem & Hmax).
  assert (Hg' : exists g', cache (detached e (Entry k v (deadline now d) old) (obj w1))
                           = Some g').
  { unfold detached, map_delete. simpl. rewrite Hg. simpl. eauto. }
  destruct Hg' as (g' & Hg').
  eexists. exists (Z.of_nat (length (e :: L1))).
  split; [apply (Get_expired_quiet now' k w1 e _ Hidle1 Hi Hm Hx)|].
  split; [exact Hgone|].
  split; [eapply Len_eq; eassumption|].
  split.
  { erewrite Len_eq; [|exact Hdl|exact Hg']. f_equal. lia. }
  split; [exact Hothers|].
  split; [reflexivity|exact Hc'].
Qed.

Lemma Get_true_inv (now : Z) (k : Key) (w w' : worldT) (v : Value) :
  idle w ->
  Get zero run now k w = Ret (v, true) w' ->
  exists L g e kv,
    dl (obj w) = Some L /\ cache (obj w) = Some g /\ g !! k = Some e /\
    e ∈ L /\ mem (obj w) !! e = Some kv /\ Expired now kv = false /\
    v = value kv /\
    w' = World (set_dl (Some (e :: unlink e L)) (obj w)) false (log w).
Proof.
  intros Hidle HGet. pose proof Hidle as [Hl Hc].
  destruct (index (cache (obj w)) k) as [e|] eqn:Hk.
  - destruct (consistent_lookup _ _ _ Hc Hk)
      as (L & g & kv & HL & Hg & Hgk & Hin & _ & Hm & Hkey).
    exists L, g, e, kv. destruct (Expired now kv) eqn:Hx.
    + rewrite (Get_expired_quiet now k w e kv Hidle Hk Hm Hx) in HGet.
      discriminate.
    + rewrite (Get_live now k w g e kv Hl Hg Hgk Hm Hx) in HGet.
      injection HGet as <- <-. rewrite HL. simpl.
      rewrite decide_True by assumption. repeat split; assumption.
  - rewrite (Get_absent now k w Hl Hk) in HGet. discriminate.
Qed.

(** X7.  [Get] never returns an expired entry.  With callbacks that keep off
    the cache, when [Get] answers [true] the key was in the map on an entry
    that has not expired at the time of the call, and the value returned is
    the value of that entry. *)
Theorem Get_found_is_live (now : Z) (k : Key) (w w' : worldT) (v : Value) :
  idle w ->
  Get zero run now k w = Ret (v, true) w' ->
  exists e kv,
    index (cache (obj w)) k = Some e /\
    mem (obj w) !! e = Some kv /\
    Expired now kv = false /\
    v = value kv /\
    log w' = log w.
Proof.
  intros Hidle HGet.
  destruct (Get_true_inv now k w w' v Hidle HGet)
    as (L & g & e & kv & HL & Hg & Hgk & Hin & Hm & Hx & Hv & ->).
  exists e, kv. split; [rewrite Hg; exact Hgk|].
  split; [exact Hm|]. split; [exact Hx|]. split; [exact Hv|reflexivity].
Qed.



End QuietReads.

(** ** What every operation keeps *)

Section QuietSteps.

Hypothesis run_quiet : quiet run.

Lemma shrinks_refl (w : worldT) : idle w -> shrinks w w.
Proof. intros Hidle. split; [exact Hidle|]. split; [reflexivity|]. split; auto. Qed.

Lemma shrinks_detached (w : worldT) (k : Key) (e : eptr) (kv : entryT)
    (lg : list eventT) :
  idle w ->
  index (cache (obj w)) k = Some e ->
  mem (obj w) !! e = Some kv ->
  shrinks w (World (detached e kv (obj w)) false lg).
Proof.
  intros [Hl Hc] Hk Hm.
  destruct (consistent_lookup _ _ _ Hc Hk) as (L & _ & _ & HL & _).
  destruct (detached_frame (obj w) k e kv L Hc HL Hk Hm)
    as (Hc' & _ & _ & Hgone & Hothers & Hmem & Hmax).
  split; [split; [reflexivity|exact Hc']|].
  split; [exact Hmax|]. split; [exact Hmem|].
  intros k' e' Hk'. cbn [obj] in Hk'.
  destruct (decide (k' = k)) as [->|Hne]; [congruence|].
  now rewrite Hothers in Hk' by exact Hne.
Qed.

Lemma Get_step (now : Z) (k : Key) (w w' : worldT) (r : Value * bool) :
  idle w -> Get zero run now k w = Ret r w' -> shrinks w w'.
Proof.
  intros Hidle HGet. pose proof Hidle as [Hl Hc].
  destruct (index (cache (obj w)) k) as [e|] eqn:Hk.
  - destruct (consistent_lookup _ _ _ Hc Hk)
      as (L & g & kv & HL & Hg & Hgk & Hin & _ & Hm & Hkey).
    destruct (Expired now kv) eqn:Hx.
    + rewrite (Get_expired_quiet run_quiet now k w e kv Hidle Hk Hm Hx) in HGet.
      injection HGet as _ <-. now apply (shrinks_detached w k).
    + rewrite (Get_live now k w g e kv Hl Hg Hgk Hm Hx) in HGet.
      injection HGet as _ <-. rewrite HL. simpl.
      rewrite decide_True by assumption.
      split; [split; [reflexivity|now apply promote_consistent]|].
      split; [reflexivity|]. split; [reflexivity|]. auto.
  - rewrite (Get_absent now k w Hl Hk) in HGet. injection HGet as _ <-.
    now apply shrinks_refl.
Qed.

Lemma Remove_step (k : Key) (w w' : worldT) :
  idle w -> Remove run k w = Ret tt w' -> shrinks w w'.
Proof.
  intros Hidle HRem. pose proof Hidle as [Hl Hc].
  destruct (index (cache (obj w)) k) as [e|] eqn:Hk.
  - destruct (consistent_lookup _ _ _ Hc Hk)
      as (L & g & kv & HL & Hg & Hgk & Hin & _ & Hm & Hkey).
    assert (Heq : Remove run k w =
              Ret tt (World (detached e kv (obj w)) false
                        (removal_events e kv ++ log w))).
    { destruct w as [[N l m h] lk lg]. simpl in *. subst lk l m.
      unfold Remove, bind, get_obj, locked. simpl. rewrite Hgk.
      rewrite (removeElement_quiet run_quiet e _ kv) by assumption. reflexivity. }
    rewrite Heq in HRem. injection HRem as <-. now apply (shrinks_detached w k).
  - assert (Heq : Remove run k w = Ret tt w).
    { destruct w as [[N l m h] lk lg]. simpl in *. subst lk.
      unfold Remove, bind, get_obj, locked, ret. simpl.
      destruct m as [g|]; [|reflexivity]. simpl in *. now rewrite Hk. }
    rewrite Heq in HRem. injection HRem as <-. now apply shrinks_refl.
Qed.

Lemma RemoveOldest_step (w w' : worldT) :
  idle w -> RemoveOldest run w = Ret tt w' -> shrinks w w'.
Proof.
  intros Hidle HRem. pose proof Hidle as [Hl Hc].
  destruct (consistent_cases _ Hc) as [[Hd Hn]|(L & g & HL & Hg)].
  - unfold RemoveOldest, bind, get_obj, ret in HRem. rewrite Hn in HRem.
    injection HRem as <-. now apply shrinks_refl.
  - destruct (last L) as [e|] eqn:Hlast.
    + assert (Hin : e ∈ L).
      { apply last_Some in Hlast as (L' & ->). apply elem_of_app. right. now left. }
      destruct (cons_list _ Hc L e HL Hin) as (kv & Hm & Hi).
      destruct (RemoveOldest_last run_quiet w L e kv Hidle HL Hlast Hm) as [Heq _].
      rewrite Heq in HRem. injection HRem as <-.
      now apply (shrinks_detached w (key kv)).
    + assert (Heq : RemoveOldest run w = Ret tt w).
      { destruct w as [[N l m h] lk lg]. simpl in *. subst lk l m.
        unfold RemoveOldest, bind, get_obj, locked, dl_Back, ret. simpl.
        rewrite Hlast. reflexivity. }
      rewrite Heq in HRem. injection HRem as <-. now apply shrinks_refl.
Qed.

Lemma DeleteExpired_step (now : Z) (order : list Key) (w w' : worldT) :
  idle w -> DeleteExpired run Intn now order w = Ret tt w' ->
  shrinks w w'.
Proof.
  intros Hidle. pose proof Hidle as [Hl Hc].
  destruct (consistent_cases _ Hc) as [[Hd Hn]|(L & g & HL & Hg)].
  { unfold DeleteExpired, bind at 1. unfold Len, bind, get_obj, ret.
    rewrite Hn. simpl. intros [= <-]. now apply shrinks_refl. }
  unfold DeleteExpired, bind at 1. rewrite (Len_eq w L g HL Hg).
  destruct (Z.of_nat (length L) =? 0)%Z eqn:Hz.
  { intros [= <-]. now apply shrinks_refl. }
  apply Z.eqb_neq in Hz.
  unfold locked. rewrite Hl.
  set (wl := World (obj w) true (log w)).
  unfold bind at 1. rewrite (Len_eq wl L g HL Hg).
  destruct (Z.of_nat (length L) <=? 0)%Z eqn:Hle; [apply Z.leb_le in Hle; lia|].
  unfold bind at 1. unfold get_obj at 1.
  destruct (sweep_inert run_quiet now order (Intn now (Z.of_nat (length L)) + 1)%Z
              (iterated ∅ (obj wl)) wl g Hc Hg)
    as (w2 & Hsw & Hlk & Hc' & Hg' & Hmem & Hmax & Hkeep & Hsub).
  rewrite Hsw. intros [= <-].
  split; [split; [reflexivity|exact Hc']|].
  split; [exact Hmax|]. split; [exact Hmem|exact Hsub].
Qed.

Lemma Clear_step (w w' : worldT) :
  idle w -> Clear w = Ret tt w' -> shrinks w w'.
Proof.
  intros [Hl Hc] HClear. destruct w as [[N l m h] lk lg]. simpl in Hl. subst lk.
  injection HClear as <-.
  split; [split; [reflexivity|]|].
  - split; simpl.
    + split; reflexivity.
    + discriminate.
    + discriminate.
    + discriminate.
  - split; [reflexivity|]. split; [reflexivity|]. discriminate.
Qed.

(** X9.  With callbacks that keep off the cache, every operation that
    returns leaves an idle cache: the mutex free, the list and the map both
    nil or both set and describing the same entries, one element for each
    key.  [Len] changes nothing at all. *)
Theorem operations_keep_idle (w : worldT) :
  idle w ->
  (forall now k v d cb w', add run now k v d cb w = Ret tt w' -> idle w') /\
  (forall now k r w', Get zero run now k w = Ret r w' -> idle w') /\
  (forall k w', Remove run k w = Ret tt w' -> idle w') /\
  (forall w', RemoveOldest run w = Ret tt w' -> idle w') /\
  (forall now order w', DeleteExpired run Intn now order w = Ret tt w' -> idle w') /\
  (forall w', Clear w = Ret tt w' -> idle w') /\
  (forall n w', Len w = Ret n w' -> w' = w).
Proof.
  intros Hidle.
  split; [intros now k v d cb w' Hadd;
          exact (proj1 (add_returns now k v d cb w w' Hidle Hadd))|].
  split; [intros now k r w' H1; exact (proj1 (Get_step now k w w' r Hidle H1))|].
  split; [intros k w' H1; exact (proj1 (Remove_step k w w' Hidle H1))|].
  split; [intros w' H1; exact (proj1 (RemoveOldest_step w w' Hidle H1))|].
  split; [intros now order w' H1;
          exact (proj1 (DeleteExpired_step now order w w' Hidle H1))|].
  split; [intros w' H1; exact (proj1 (Clear_step w w' Hidle H1))|].
  intros n w'. unfold Len, dl_Len, bind, get_obj, ret, panic.
  destruct (cache (obj w)); [|now intros [= _ <-]].
  destruct (dl (obj w)); [now intros [= _ <-]|discriminate].
Qed.

(** X15.  Only the inserts add keys.  With callbacks that keep off the
    cache, after a [Get], [Remove], [RemoveOldest], [DeleteExpired] or
    [Clear] that returns, every key of the map was in the map before, on
    the same element; the stored entries and the capacity are unchanged. *)
Theorem only_inserts_add_keys (w : worldT) :
  idle w ->
  forall w',
    (exists now k r, Get zero run now k w = Ret r w') \/
    (exists k, Remove run k w = Ret tt w') \/
    RemoveOldest run w = Ret tt w' \/
    (exists now order, DeleteExpired run Intn now order w = Ret tt w') \/
    Clear w = Ret tt w' ->
    (forall k e, index (cache (obj w')) k = Some e ->
       index (cache (obj w)) k = Some e) /\
    mem (obj w') = mem (obj w) /\
    MaxEntries (obj w') = MaxEntries (obj w).
Proof.
  intros Hidle w' Hop.
  assert (Hs : shrinks w w').
  { destruct Hop as [(now & k & r & H1)|[(k & H1)|[H1|[(now & order & H1)|H1]]]].
    - exact (Get_step now k w w' r Hidle H1).
    - exact (Remove_step k w w' Hidle H1).
    - exact (RemoveOldest_step w w' Hidle H1).
    - exact (DeleteExpired_step now order w w' Hidle H1).
    - exact (Clear_step w w' Hidle H1). }
  destruct Hs as (_ & Hmax & Hmem & Hsub).
  split; [exact Hsub|]. split; [exact Hmem|exact Hmax].
Qed.

End QuietSteps.

(** ** The capacity *)

Lemma add_within (now : Z) (k : Key) (v : Value) (d : Z) (cb : option fptr)
    (w w1 : worldT) :
  idle w ->
  within_capacity (obj w) ->
  add run now k v d cb w = Ret tt w1 ->
  within_capacity (obj w1).
Proof.
  intros Hidle Hwithin Hadd. pose proof Hidle as [Hl Hc].
  intros L1 HL1 Hpos.
  destruct (add_returns now k v d cb w w1 Hidle Hadd) as (_ & _ & Hmax & _).
  rewrite Hmax in Hpos.
  destruct (consistent_cases _ Hc) as [[Hd Hn]|(L & g & HL & Hg)].
  - rewrite (add_cleared now k v d cb w Hl Hn) in Hadd.
    destruct (add_returns_within_capacity now k v d cb (emptied w) w1 []
                (emptied_idle w Hl) eq_refl Hpos) as (L' & HL' & Hle & _);
      [simpl; lia|exact Hadd|].
    congruence.
  - destruct (add_returns_within_capacity now k v d cb w w1 L Hidle HL Hpos
                (Hwithin L HL Hpos) Hadd) as (L' & HL' & Hle & _).
    congruence.
Qed.

(** X10.  The capacity bound over the inserts that return.  In an idle
    cache with a capacity [N > 0] that holds at most [N] entries, an insert
    that returns, of a new key or of one that was there, leaves at most [N]
    entries and the capacity as it was. *)
Theorem insert_within_capacity (now : Z) (k : Key) (v : Value) (d : Z)
    (cb : option fptr) (w w1 : worldT) :
  idle w ->
  (0 < MaxEntries (obj w))%Z ->
  within_capacity (obj w) ->
  add run now k v d cb w = Ret tt w1 ->
  exists n1,
    Len w1 = Ret n1 w1 /\
    (1 <= n1 <= MaxEntries (obj w))%Z /\
    MaxEntries (obj w1) = MaxEntries (obj w) /\
    idle w1.
Proof.
  intros Hidle Hpos Hwithin Hadd.
  pose proof (add_within now k v d cb w w1 Hidle Hwithin Hadd) as Hw1.
  destruct (add_returns now k v d cb w w1 Hidle Hadd)
    as (Hidle1 & _ & Hmax & _ & e & L1 & old & HL1 & Hi & _).
  pose proof Hidle1 as [_ Hc1].
  destruct (consistent_lookup _ _ _ Hc1 Hi) as (_ & g1 & _ & _ & Hg1 & _).
  exists (Z.of_nat (length (e :: L1))).
  split; [eapply Len_eq; eassumption|].
  split; [|split; assumption].
  split; [simpl; lia|].
  rewrite <- Hmax. apply Hw1; [exact HL1|]. rewrite Hmax. exact Hpos.
Qed.

Section QuietSequences.

Hypothesis run_quiet : quiet run.

Lemma shrinks_within (w w' : worldT) :
  idle w -> shrinks w w' -> within_capacity (obj w) -> within_capacity (obj w').
Proof.
  intros [Hl Hc] ([_ Hc'] & Hmax & _ & Hsub) Hwithin L' HL' Hpos.
  rewrite Hmax in *.
  destruct (consistent_cases _ Hc') as [[Hd' _]|(L0 & g' & HL0 & Hg')];
    [congruence|].
  assert (L0 = L') by congruence. subst L0.
  rewrite (list_length_size (obj w') L' g' Hc' HL' Hg').
  destruct (consistent_cases _ Hc) as [[Hd Hn]|(L & g & HL & Hg)].
  - assert (Hempty : g' = ∅).
    { apply map_eq. intros k. rewrite lookup_empty.
      destruct (g' !! k) as [e|] eqn:Hk; [|reflexivity].
      assert (Hi : index (cache (obj w')) k = Some e) by (rewrite Hg'; exact Hk).
      apply Hsub in Hi. rewrite Hn in Hi. discriminate. }
    rewrite Hempty, map_size_empty. simpl. lia.
  - assert (Hsubmap : g' ⊆ g).
    { apply map_subseteq_spec. intros k e Hk.
      assert (Hi : index (cache (obj w')) k = Some e) by (rewrite Hg'; exact Hk).
      apply Hsub in Hi. rewrite Hg in Hi. exact Hi. }
    apply map_subseteq_size in Hsubmap.
    rewrite <- (list_length_size (obj w) L g Hc HL Hg) in Hsubmap.
    pose proof (Hwithin L HL Hpos). lia.
Qed.

Lemma exec_step (r : request) (w w' : worldT) :
  idle w ->
  within_capacity (obj w) ->
  exec zero run Intn r w = Ret tt w' ->
  idle w' /\ within_capacity (obj w') /\
  MaxEntries (obj w') = MaxEntries (obj w).
Proof.
  intros Hidle Hwithin Hexec.
  assert (Hadd : forall now k v d cb,
            add run now k v d cb w = Ret tt w' ->
            idle w' /\ within_capacity (obj w') /\
            MaxEntries (obj w') = MaxEntries (obj w)).
  { intros now k v d cb H1.
    destruct (add_returns now k v d cb w w' Hidle H1) as (Hi & _ & Hmax & _).
    split; [exact Hi|]. split; [|exact Hmax].
    exact (add_within now k v d cb w w' Hidle Hwithin H1). }
  assert (Hshrink : shrinks w w' ->
            idle w' /\ within_capacity (obj w') /\
            MaxEntries (obj w') = MaxEntries (obj w)).
  { intros Hs. split; [exact (proj1 Hs)|].
    split; [exact (shrinks_within w w' Hidle Hs Hwithin)|].
    exact (proj1 (proj2 Hs)). }
  destruct r as [k v|now k v d|now k v d cb|now k|k| |now order| |]; simpl in Hexec.
  - exact (Hadd _ _ _ _ _ Hexec).
  - exact (Hadd _ _ _ _ _ Hexec).
  - exact (Hadd _ _ _ _ _ Hexec).
  - unfold bind in Hexec.
    destruct (Get zero run now k w) as [r w2|w2|w2] eqn:HGet; [|discriminate..].
    injection Hexec as <-. apply Hshrink.
    exact (Get_step run_quiet now k w w2 r Hidle HGet).
  - apply Hshrink. exact (Remove_step run_quiet k w w' Hidle Hexec).
  - apply Hshrink. exact (RemoveOldest_step run_quiet w w' Hidle Hexec).
  - apply Hshrink. exact (DeleteExpired_step run_quiet now order w w' Hidle Hexec).
  - unfold bind in Hexec.
    destruct (Len w) as [n w2|w2|w2] eqn:HLen; [|discriminate..].
    injection Hexec as <-. apply Hshrink.
    assert (w2 = w).
    { revert HLen. unfold Len, dl_Len, bind, get_obj, ret, panic.
      destruct (cache (obj w)); [|now intros [= _ <-]].
      destruct (dl (obj w)); [now intros [= _ <-]|discriminate]. }
    subst w2. now apply shrinks_refl.
  - apply Hshrink. exact (Clear_step w w' Hidle Hexec).
Qed.

(** X13.  Any sequence of calls.  With callbacks that keep off the cache,
    after any sequence of [Add], [AddEx], [AddExWithOnEvicted], [Get],
    [Remove], [RemoveOldest], [DeleteExpired], [Len] and [Clear] that runs
    to its end from an idle cache within its capacity, the cache is idle,
    holds no more entries than its capacity when that is positive, and has
    the capacity it started with. *)
Theorem sequences_keep_invariants (rs : list request) :
  forall w w' : worldT,
    idle w ->
    within_capacity (obj w) ->
    exec_all zero run Intn rs w = Ret tt w' ->
    idle w' /\
    within_capacity (obj w') /\
    MaxEntries (obj w') = MaxEntries (obj w) /\
    (forall n, (0 < MaxEntries (obj w))%Z -> Len w' = Ret n w' ->
       (n <= MaxEntries (obj w))%Z).
Proof.
  assert (Hmain : forall (w w' : worldT),
            idle w -> within_capacity (obj w) ->
            exec_all zero run Intn rs w = Ret tt w' ->
            idle w' /\ within_capacity (obj w') /\
            MaxEntries (obj w') = MaxEntries (obj w)).
  { induction rs as [|r rs IH]; intros w w' Hidle Hwithin Hrun.
    - injection Hrun as <-.
      split; [exact Hidle|]. split; [exact Hwithin|reflexivity].
    - simpl in Hrun. unfold bind in Hrun.
      destruct (exec zero run Intn r w) as [[] w1|w1|w1] eqn:Hexec;
        [|discriminate..].
      destruct (exec_step r w w1 Hidle Hwithin Hexec) as (Hidle1 & Hw1 & Hmax1).
      destruct (IH w1 w' Hidle1 Hw1 Hrun) as (Hidle' & Hw' & Hmax').
      split; [exact Hidle'|]. split; [exact Hw'|]. congruence. }
  intros w w' Hidle Hwithin Hrun.
  destruct (Hmain w w' Hidle Hwithin Hrun) as (Hidle' & Hw' & Hmax').
  split; [exact Hidle'|]. split; [exact Hw'|]. split; [exact Hmax'|].
  intros n Hpos HLen. rewrite <- Hmax' in *.
  revert HLen. unfold Len, dl_Len, bind, get_obj, ret, panic.
  destruct (cache (obj w')); [|intros [= <-]; lia].
  destruct (dl (obj w')) as [L|] eqn:HL; [|discriminate].
  intros [= <-]. exact (Hw' L HL Hpos).
Qed.

End QuietSequences.

(** ** The sweep, again *)

Lemma stale_test (now : Z) (kv : entryT) :
  (0 <? Expiration kv)%Z && (Expiration kv <? now)%Z = true <-> stale now kv.
Proof.
  unfold stale. rewrite andb_true_iff, Z.ltb_lt, Z.ltb_lt. reflexivity.
Qed.

Lemma sweep_clean (now : Z) (order : list Key) :
  forall (count : Z) (it : gmap Key eptr) (w : worldT) (g : gmap Key eptr),
    consistent (obj w) ->
    cache (obj w) = Some g ->
    (forall k e kv, g !! k = Some e -> mem (obj w) !! e = Some kv ->
       ¬ stale now kv) ->
    exists lg,
      sweep run now order count it w = Ret tt (World (obj w) (lock w) lg) /\
      fired lg = fired (log w).
Proof.
  induction order as [|k rest IH]; intros count it w g Hc Hg Hclean.
  - exists (log w). split; [|reflexivity]. simpl. unfold ret. now destruct w.
  - simpl. unfold bind at 1. unfold get_obj at 1.
    replace (iterated it (obj w)) with g by (unfold iterated; now rewrite Hg).
    destruct (g !! k) as [v|] eqn:Hk; [|eapply IH; eassumption].
    destruct (count =? 0)%Z.
    { exists (log w). split; [|reflexivity]. unfold ret. now destruct w. }
    unfold bind at 1. unfold emit at 1.
    set (w1 := World (obj w) (lock w) (Visited v :: log w)).
    assert (Hi : index (cache (obj w)) k = Some v) by (rewrite Hg; exact Hk).
    destruct (cons_index _ Hc k v Hi) as [_ (kv & Hm & Hkey)].
    unfold bind at 1. unfold deref at 1.
    change (mem (obj w1)) with (mem (obj w)). rewrite Hm.
    destruct ((0 <? Expiration kv)%Z && (Expiration kv <? now)%Z) eqn:Hst.
    { apply stale_test in Hst. exfalso. exact (Hclean k v kv Hk Hm Hst). }
    unfold bind at 1. unfold ret at 1.
    destruct (IH (count - 1)%Z g w1 g Hc Hg Hclean) as (lg & Heq & Hf).
    exists lg. split; [exact Heq|exact Hf].
Qed.

(** X14.  A sweep of a cache in which nothing is due, whatever the
    callbacks would do, whatever the draw and the walk: the call returns, the
    cache is what it was, and no callback is called. *)
Theorem sweep_with_nothing_due (now : Z) (order : list Key) (w : worldT) :
  idle w ->
  (forall k e kv,
     index (cache (obj w)) k = Some e -> mem (obj w) !! e = Some kv ->
     ¬ ((0 < Expiration kv)%Z /\ (Expiration kv < now)%Z)) ->
  exists w',
    DeleteExpired run Intn now order w = Ret tt w' /\
    obj w' = obj w /\
    lock w' = false /\
    fired (log w') = fired (log w).
Proof.
  intros [Hl Hc] Hclean.
  destruct (consistent_cases _ Hc) as [[Hd Hn]|(L & g & HL & Hg)].
  { exists w. split; [|repeat split; assumption].
    unfold DeleteExpired, bind at 1. unfold Len, bind, get_obj, ret.
    rewrite Hn. reflexivity. }
  unfold DeleteExpired, bind at 1. rewrite (Len_eq w L g HL Hg).
  destruct (Z.of_nat (length L) =? 0)%Z eqn:Hz.
  { exists w. split; [reflexivity|]. repeat split; assumption. }
  apply Z.eqb_neq in Hz.
  unfold locked. rewrite Hl.
  set (wl := World (obj w) true (log w)).
  unfold bind at 1. rewrite (Len_eq wl L g HL Hg).
  destruct (Z.of_nat (length L) <=? 0)%Z eqn:Hle; [apply Z.leb_le in Hle; lia|].
  unfold bind at 1. unfold get_obj at 1.
  destruct (sweep_clean now order (Intn now (Z.of_nat (length L)) + 1)%Z
              (iterated ∅ (obj wl)) wl g Hc Hg) as (lg & Heq & Hf).
  { intros k e kv Hk Hm. apply (Hclean k e kv); [|exact Hm].
    rewrite Hg. exact Hk. }
  rewrite Heq. eexists. split; [reflexivity|].
  split; [reflexivity|]. split; [reflexivity|exact Hf].
Qed.

Lemma pending_delete (g : gmap Key eptr) (k : Key) (rest : list Key) :
  k ∉ rest -> pending (delete k g) rest = pending g rest.
Proof.
  unfold pending. induction rest as [|x rest IH]; intros Hnot; [reflexivity|].
  assert (Hne : x ≠ k) by (intros ->; apply Hnot; now left).
  assert (Hrest : k ∉ rest) by (intros Hin; apply Hnot; now right).
  rewrite !filter_cons. rewrite lookup_delete_ne by congruence.
  destruct (decide (is_Some (g !! x))); simpl; rewrite (IH Hrest); reflexivity.
Qed.

Lemma length_le_size (g : gmap Key eptr) (l : list Key) :
  NoDup l -> (forall x, x ∈ l -> is_Some (g !! x)) -> length l <= size g.
Proof.
  revert g. induction l as [|x l IH]; intros g Hnd Hin; [simpl; lia|].
  apply NoDup_cons in Hnd as [Hx Hnd].
  assert (Hsx : is_Some (g !! x)) by (apply Hin; now left).
  pose proof (map_size_delete_Some x g Hsx) as Hsize.
  assert (Hpos : size g ≠ 0).
  { intros Hz. apply map_size_empty_inv in Hz. subst g.
    rewrite lookup_empty in Hsx. now destruct Hsx. }
  assert (Hl : length l <= size (delete x g)).
  { apply IH; [exact Hnd|]. intros y Hy.
    rewrite lookup_delete_ne; [apply Hin; now right|].
    intros ->. contradiction. }
  simpl. lia.
Qed.

Lemma pending_le_size (g : gmap Key eptr) (order : list Key) :
  NoDup order -> pending g order <= size g.
Proof.
  intros Hnd. unfold pending. apply length_le_size.
  - now apply NoDup_filter.
  - intros x Hx. apply list_elem_of_filter in Hx. exact (proj1 Hx).
Qed.

Section QuietSweep.

Hypothesis run_quiet : quiet run.

Lemma sweep_exhaustive (now : Z) (order : list Key) :
  forall (count : Z) (it : gmap Key eptr) (w : worldT) (g : gmap Key eptr),
    NoDup order ->
    consistent (obj w) ->
    cache (obj w) = Some g ->
    (Z.of_nat (pending g order) <= count)%Z ->
    (forall k e kv, g !! k = Some e -> mem (obj w) !! e = Some kv ->
       stale now kv -> k ∈ order) ->
    exists w',
      sweep run now order count it w = Ret tt w' /\
      (forall k e kv,
         index (cache (obj w')) k = Some e -> mem (obj w') !! e = Some kv ->
         ¬ stale now kv).
Proof.
  induction order as [|k rest IH]; intros count it w g Hnd Hc Hg Hcount Hdue.
  - exists w. split; [reflexivity|].
    intros k e kv Hk Hm Hst. rewrite Hg in Hk. simpl in Hk.
    pose proof (Hdue k e kv Hk Hm Hst) as Hin. inversion Hin.
  - apply NoDup_cons in Hnd as [Hk_rest Hnd].
    simpl. unfold bind at 1. unfold get_obj at 1.
    replace (iterated it (obj w)) with g by (unfold iterated; now rewrite Hg).
    unfold pending in Hcount. rewrite filter_cons in Hcount.
    destruct (g !! k) as [v|] eqn:Hk.
    2:{ rewrite decide_False in Hcount by (intros [? ?]; discriminate).
        apply (IH count g w g Hnd Hc Hg Hcount).
        intros k' e kv Hk' Hm Hst.
        pose proof (Hdue k' e kv Hk' Hm Hst) as Hin.
        apply elem_of_cons in Hin as [->|Hin]; [congruence|exact Hin]. }
    rewrite decide_True in Hcount by eauto. simpl in Hcount.
    fold (pending g rest) in Hcount.
    destruct (count =? 0)%Z eqn:Hz; [apply Z.eqb_eq in Hz; lia|].
    unfold bind at 1. unfold emit at 1.
    set (w1 := World (obj w) (lock w) (Visited v :: log w)).
    assert (Hi : index (cache (obj w)) k = Some v) by (rewrite Hg; exact Hk).
    destruct (cons_index _ Hc k v Hi) as [_ (kv0 & Hm0 & Hkey0)].
    unfold bind at 1. unfold deref at 1.
    change (mem (obj w1)) with (mem (obj w)). rewrite Hm0.
    unfold bind at 1.
    destruct ((0 <? Expiration kv0)%Z && (Expiration kv0 <? now)%Z) eqn:Hst.
    + rewrite (removeElement_quiet run_quiet v w1 kv0 Hm0).
      destruct (detached_consistent (obj w) k v kv0 Hc Hi Hm0)
        as (Hc2 & L & g0 & HL & Hg0 & Hdl2 & Hca2).
      assert (g0 = g) by congruence. subst g0.
      apply (IH (count - 1)%Z g
               (World (detached v kv0 (obj w1)) (lock w1)
                  (removal_events v kv0 ++ log w1))
               (delete k g) Hnd Hc2 Hca2).
      * rewrite (pending_delete g k rest Hk_rest). lia.
      * intros k' e kv Hk' Hm Hstale.
        apply lookup_delete_Some in Hk' as [Hne Hk'].
        pose proof (Hdue k' e kv Hk' Hm Hstale) as Hin.
        apply elem_of_cons in Hin as [->|Hin]; [congruence|exact Hin].
    + unfold ret at 1.
      apply (IH (count - 1)%Z g w1 g Hnd Hc Hg); [lia|].
      intros k' e kv Hk' Hm Hstale.
      pose proof (Hdue k' e kv Hk' Hm Hstale) as Hin.
      apply elem_of_cons in Hin as [->|Hin]; [|exact Hin].
      exfalso. assert (e = v) by congruence. subst e.
      change (mem (obj w) !! v = Some kv) in Hm.
      assert (kv = kv0) by congruence. subst kv.
      pose proof (proj2 (stale_test now kv0) Hstale) as Htrue.
      rewrite Htrue in Hst. discriminate.
Qed.

(** X12.  A sweep that is complete.  With callbacks that keep off the
    cache, when the draw is the largest ([rand.Intn] gives [Len() - 1]) and
    the walk goes once over every key of the map, the call returns and
    leaves no entry that is due: every entry still in the map has no
    expiration or one that has not passed, and every such entry is still
    there. *)
Theorem sweep_with_largest_draw (now : Z) (order : list Key) (w : worldT)
    (L : list eptr) (g : gmap Key eptr) :
  idle w ->
  dl (obj w) = Some L ->
  cache (obj w) = Some g ->
  Intn now (Z.of_nat (length L)) = (Z.of_nat (length L) - 1)%Z ->
  NoDup order ->
  (forall k, is_Some (g !! k) -> k ∈ order) ->
  exists w',
    DeleteExpired run Intn now order w = Ret tt w' /\
    idle w' /\
    (forall k e kv,
       index (cache (obj w')) k = Some e -> mem (obj w') !! e = Some kv ->
       ¬ ((0 < Expiration kv)%Z /\ (Expiration kv < now)%Z)) /\
    (forall e kv,
       index (cache (obj w)) (key kv) = Some e -> mem (obj w) !! e = Some kv ->
       ¬ ((0 < Expiration kv)%Z /\ (Expiration kv < now)%Z) ->
       index (cache (obj w')) (key kv) = Some e).
Proof.
  intros Hidle HL Hg Hdraw Hnd Hall. pose proof Hidle as [Hl Hc].
  destruct (DeleteExpired_inert run_quiet now order w Hidle)
    as (w' & Heq & Hidle' & Hmem & Hkeep & _).
  exists w'. split; [exact Heq|]. split; [exact Hidle'|].
  split; [|exact Hkeep].
  revert Heq. unfold DeleteExpired, bind at 1. rewrite (Len_eq w L g HL Hg).
  destruct (Z.of_nat (length L) =? 0)%Z eqn:Hz.
  { intros [= <-]. intros k e kv Hk Hm Hst.
    apply Z.eqb_eq in Hz.
    assert (Hin : e ∈ L).
    { destruct (cons_index _ Hc k e Hk) as [(L' & HL' & Hin) _]. congruence. }
    destruct L; [inversion Hin|simpl in Hz; lia]. }
  apply Z.eqb_neq in Hz.
  unfold locked. rewrite Hl.
  set (wl := World (obj w) true (log w)).
  unfold bind at 1. rewrite (Len_eq wl L g HL Hg).
  destruct (Z.of_nat (length L) <=? 0)%Z eqn:Hle; [apply Z.leb_le in Hle; lia|].
  unfold bind at 1. unfold get_obj at 1.
  destruct (sweep_exhaustive now order (Intn now (Z.of_nat (length L)) + 1)%Z
              (iterated ∅ (obj wl)) wl g Hnd Hc Hg) as (w2 & Hsw & Hnone).
  { rewrite Hdraw. pose proof (pending_le_size g order Hnd).
    rewrite (list_length_size (obj w) L g Hc HL Hg). lia. }
  { intros k e kv Hk _ _. apply Hall. eauto. }
  rewrite Hsw. intros [= <-]. exact Hnone.
Qed.

End QuietSweep.

End Properties.

(** C3.  With capacity 2, [Add(A); Add(B); Get(A); Add(C)] does not come to
    an end: the last insert blocks in [RemoveOldest] with the three keys in
    the cache, [B] among them and last in the list. *)
Theorem lru_order_blocks
    (cb : fptr -> string -> Z -> @Cache string _ _ Z -> @reply string _ _ Z) :
  exists w,
    Demo.lru_order_script cb (New 2) = Block w /\
    lock w = true /\
    dl (obj w) = Some [2; 0; 1] /\
    index (cache (obj w)) "A" = Some 0 /\
    index (cache (obj w)) "B" = Some 1 /\
    index (cache (obj w)) "C" = Some 2 /\
    log w = [].
Proof.
  eexists. split; [vm_compute; reflexivity|].
  repeat split.
Qed.

Lemma overflow_insert_blocks_witness :
  exists w',
    add Demo.inert 0 "b" 2%Z (-1) None Demo.full_of_one = Block w' /\
    lock w' = true /\
    dl (obj w') = Some [1; 0] /\
    cache (obj w') = Some (<["b" := 1]> {["a" := 0]}) /\
    log w' = [].
Proof.
  apply (overflow_insert_blocks Demo.inert 0 "b" 2%Z (-1) None
           Demo.full_of_one [0] {["a" := 0]});
    [reflexivity|reflexivity|reflexivity|reflexivity|reflexivity|].
  change (1 <= 1)%Z. lia.
Defined.

Lemma negative_capacity_insert_blocks_witness :
  exists w',
    AddExWithOnEvicted Demo.inert 0 "k" 1%Z 0 (Some 0) (New (-1)) = Block w' /\
    lock w' = true /\
    dl (obj w') = Some [0] /\
    index (cache (obj w')) "k" = Some 0 /\
    mem (obj w') !! 0 = Some (Entry "k" 1%Z 0%Z (Some 0)) /\
    log w' = [].
Proof.
  apply (negative_capacity_insert_blocks Demo.inert 0 "k" 1%Z 0 (Some 0)
           (New (-1)) [] ∅);
    [reflexivity|reflexivity|reflexivity|reflexivity|reflexivity].
Defined.

(** * The model at work *)

Lemma one_expiring_idle
    (cb : fptr -> string -> Z -> @Cache string _ _ Z -> @reply string _ _ Z) :
  idle (Demo.one_expiring cb).
Proof.
  destruct (add_fresh_idle cb 0 "x" 1%Z 100 (Some 0) (New 2) [] ∅
              (New_idle 2) eq_refl eq_refl eq_refl) as [Heq Hidle].
  - right. simpl. lia.
  - unfold Demo.one_expiring, AddExWithOnEvicted. rewrite Heq. exact Hidle.
Qed.

Lemma two_keys_idle : idle Demo.two_keys.
Proof.
  destruct (add_fresh_idle Demo.inert 0 "x" 1%Z 100 None (New 0) [] ∅
              (New_idle 0) eq_refl eq_refl eq_refl) as [Heq1 Hidle1];
    [left; reflexivity|].
  destruct (add_fresh_idle Demo.inert 0 "y" 2%Z (-1) None _ _ _
              Hidle1 eq_refl eq_refl eq_refl) as [Heq2 Hidle2];
    [left; reflexivity|].
  unfold Demo.two_keys, bind, AddEx, Add. rewrite Heq1, Heq2. exact Hidle2.
Qed.

(** The expiry scenario of the specification: a key inserted with a time to
    live of 100 is found at once, and at time 150 it is gone and its
    callback has been called once. *)
Example ttl_expiry :
  (exists w, Get 0%Z Demo.inert 0 "x" (Demo.one_expiring Demo.inert) = Ret (1%Z, true) w) /\
  (exists w, Get 0%Z Demo.inert 150 "x" (Demo.one_expiring Demo.inert) = Ret (0%Z, false) w /\
     fired (log w) = [(0, "x", 1%Z)] /\
     Len w = Ret 0%Z w).
Proof.
  split; eexists; [vm_compute; reflexivity|].
  split; [vm_compute; reflexivity|]. split; reflexivity.
Qed.

(** A sweep at time 201 that draws the count 2 removes [x] and keeps [y];
    at time 200 it draws 1 and stops after the first key. *)
Example sweep_two_keys :
  (exists w, DeleteExpired Demo.inert Demo.pick 201 ["x"; "y"] Demo.two_keys = Ret tt w /\
     dl (obj w) = Some [1] /\
     index (cache (obj w)) "x" = None /\
     index (cache (obj w)) "y" = Some 1 /\
     visits (log w) = 2) /\
  (exists w, DeleteExpired Demo.inert Demo.pick 200 ["y"; "x"] Demo.two_keys = Ret tt w /\
     dl (obj w) = Some [1; 0] /\
     visits (log w) = 1).
Proof.
  split; eexists; (split; [vm_compute; reflexivity|]); repeat split.
Qed.

(** C2, against the claim as written: the key [x] is in the cache and has
    expired, and [Get] reports it found, with the value its callback put
    back. *)
Lemma Get_expired_reports_found :
  lock (Demo.one_expiring Demo.reload) = false /\
  index (cache (obj (Demo.one_expiring Demo.reload))) "x" = Some 0 /\
  mem (obj (Demo.one_expiring Demo.reload)) !! 0 = Some (Entry "x" 1%Z 100%Z (Some 0)) /\
  Expired 200 (Entry "x" 1%Z 100%Z (Some 0)) = true /\
  exists w,
    Get 0%Z Demo.reload 200 "x" (Demo.one_expiring Demo.reload) = Ret (7%Z, true) w /\
    fired (log w) = [(0, "x", 1%Z)].
Proof.
  split; [reflexivity|]. split; [reflexivity|]. split; [reflexivity|].
  split; [reflexivity|].
  eexists. split; [vm_compute; reflexivity|reflexivity].
Qed.

(** ** The theorems at concrete inputs *)

Lemma insert_present_frame_witness :
  idle (Demo.one_expiring Demo.inert) /\
  exists w',
    AddExWithOnEvicted Demo.inert 5 "x" 9%Z 0 None (Demo.one_expiring Demo.inert) = Ret tt w' /\
    Len w' = Ret 1%Z w' /\
    log w' = [] /\
    dl (obj w') = Some [0] /\
    mem (obj w') !! 0 = Some (Entry "x" 9%Z 0%Z (Some 0)).
Proof.
  pose proof (one_expiring_idle Demo.inert) as Hidle.
  split; [exact Hidle|].
  destruct (insert_present_frame Demo.inert 5 "x" 9%Z 0 None
              (Demo.one_expiring Demo.inert) [0] 0 (Entry "x" 1%Z 100%Z (Some 0))
              Hidle eq_refl eq_refl eq_refl)
    as (w' & Hadd & _ & Hlen & Hlog & _ & _ & Hdl & Hmem & _).
  exists w'. split; [exact Hadd|]. split; [exact Hlen|]. split; [exact Hlog|].
  split; [exact Hdl|exact Hmem].
Defined.

Lemma plain_insert_keeps_callback_witness :
  exists w1 w2,
    Add Demo.inert "x" 9%Z (Demo.one_expiring Demo.inert) = Ret tt w1 /\
    AddEx Demo.inert 5 "x" 9%Z 50 (Demo.one_expiring Demo.inert) = Ret tt w2 /\
    mem (obj w1) !! 0 = Some (Entry "x" 9%Z 0%Z (Some 0)) /\
    mem (obj w2) !! 0 = Some (Entry "x" 9%Z 55%Z (Some 0)) /\
    fired (log (world_of (Remove Demo.inert "x" w1))) = [(0, "x", 9%Z)] /\
    fired (log (world_of (Remove Demo.inert "x" w2))) = [(0, "x", 9%Z)].
Proof.
  destruct (plain_insert_keeps_callback Demo.inert 5 "x" 9%Z 50
              (Demo.one_expiring Demo.inert) [0] 0 (Entry "x" 1%Z 100%Z (Some 0)) 0
              (one_expiring_idle Demo.inert) eq_refl eq_refl eq_refl eq_refl)
    as (w1 & w2 & H1 & H2 & Hm1 & Hm2 & _ & _ & _ & _ & Hr1 & Hr2).
  exists w1, w2. split; [exact H1|]. split; [exact H2|].
  split; [exact Hm1|]. split; [exact Hm2|].
  rewrite Hr1, Hr2. split; reflexivity.
Defined.

Lemma callback_attached_on_creation_only_witness :
  (exists w',
     AddExWithOnEvicted Demo.inert 5 "x" 9%Z 50 (Some 7)
       (Demo.one_expiring Demo.inert) = Ret tt w' /\
     mem (obj w') !! 0 = Some (Entry "x" 9%Z 55%Z (Some 0))) /\
  (exists w',
     AddExWithOnEvicted Demo.inert 5 "z" 9%Z 50 (Some 7)
       (Demo.one_expiring Demo.inert) = Ret tt w' /\
     mem (obj w') !! 1 = Some (Entry "z" 9%Z 55%Z (Some 7))).
Proof.
  destruct (callback_attached_on_creation_only Demo.inert 5 "x" 9%Z 50 (Some 7)
              (Demo.one_expiring Demo.inert) [0] {["x" := 0]}
              (one_expiring_idle Demo.inert) eq_refl eq_refl) as [Hold _].
  destruct (callback_attached_on_creation_only Demo.inert 5 "z" 9%Z 50 (Some 7)
              (Demo.one_expiring Demo.inert) [0] {["x" := 0]}
              (one_expiring_idle Demo.inert) eq_refl eq_refl) as [_ Hnew].
  split.
  - destruct (Hold 0 (Entry "x" 1%Z 100%Z (Some 0)) eq_refl eq_refl)
      as (w' & Hadd & Hm & _).
    exists w'. split; [exact Hadd|exact Hm].
  - destruct (Hnew eq_refl) as (w' & Hadd & _ & Hm).
    + right. change (2 <= 2)%Z. lia.
    + exists w'. split; [exact Hadd|exact Hm].
Defined.

Lemma Clear_leaves_empty_cache_witness :
  exists w0,
    Clear (Demo.one_expiring Demo.inert) = Ret tt w0 /\
    log w0 = [] /\
    Len w0 = Ret 0%Z w0 /\
    Get 0%Z Demo.inert 0 "x" w0 = Ret (0%Z, false) w0 /\
    exists w1,
      add Demo.inert 0 "y" 2%Z 0 None w0 = Ret tt w1 /\
      Len w1 = Ret 1%Z w1.
Proof.
  destruct (Clear_leaves_empty_cache 0%Z Demo.inert Demo.pick
              (Demo.one_expiring Demo.inert) 0 "x" 1%Z 0 None [] eq_refl)
    as (w0 & HClear & Hlog & _ & _ & HLen & HGet & _).
  destruct (Clear_leaves_empty_cache 0%Z Demo.inert Demo.pick
              (Demo.one_expiring Demo.inert) 0 "y" 2%Z 0 None [] eq_refl)
    as (w0' & HClear' & _ & _ & _ & _ & _ & _ & _ & _ & _ & _ & _ & _ & _ & _ & _ & Hadd).
  assert (w0' = w0) by congruence. subst w0'.
  exists w0. split; [exact HClear|]. split; [exact Hlog|].
  split; [exact HLen|]. split; [exact HGet|].
  destruct Hadd as (w1 & Hadd & _ & _ & _ & Hlen1 & _).
  - change (0 <= 2)%Z. lia.
  - exists w1. split; [exact Hadd|exact Hlen1].
Defined.

Lemma Get_cases_witness :
  Get 0%Z Demo.inert 200 "q" (Demo.one_expiring Demo.inert) =
    Ret (0%Z, false) (Demo.one_expiring Demo.inert) /\
  (exists w, Get 0%Z Demo.inert 50 "x" (Demo.one_expiring Demo.inert) = Ret (1%Z, true) w) /\
  (exists w, Get 0%Z Demo.inert 200 "x" (Demo.one_expiring Demo.inert) = Ret (0%Z, false) w /\
     fired (log w) = [(0, "x", 1%Z)]).
Proof.
  destruct (Get_cases 0%Z Demo.inert 200 "q" (Demo.one_expiring Demo.inert)
              (one_expiring_idle Demo.inert)) as (Habsent & _ & _).
  destruct (Get_cases 0%Z Demo.inert 50 "x" (Demo.one_expiring Demo.inert)
              (one_expiring_idle Demo.inert)) as (_ & Hlive & _).
  destruct (Get_cases 0%Z Demo.inert 200 "x" (Demo.one_expiring Demo.inert)
              (one_expiring_idle Demo.inert)) as (_ & _ & Hexp).
  split; [exact (Habsent eq_refl)|]. split.
  - eexists. exact (Hlive [0] 0 (Entry "x" 1%Z 100%Z (Some 0)) eq_refl eq_refl eq_refl eq_refl).
  - destruct (Hexp [0] 0 (Entry "x" 1%Z 100%Z (Some 0)) eq_refl eq_refl eq_refl eq_refl)
      as (_ & _ & _ & Hcb).
    destruct (Hcb _ eq_refl) as [Hgone _].
    eexists. split; [exact (Hgone eq_refl)|reflexivity].
Defined.

Lemma Get_second_lookup_witness :
  Get 0%Z Demo.reload 200 "x" (Demo.one_expiring Demo.reload) =
    Ret (7%Z, true) (World (obj Demo.reloaded) false (log Demo.reloaded)).
Proof.
  destruct (Get_second_lookup 0%Z Demo.reload 200 "x"
              (Demo.one_expiring Demo.reload) Demo.reloaded 0
              (Entry "x" 1%Z 100%Z (Some 0))
              (one_expiring_idle Demo.reload) eq_refl eq_refl eq_refl eq_refl)
    as (_ & _ & _ & Hback & _).
  exact (Hback 1 (Entry "x" 7%Z 0%Z None) eq_refl eq_refl).
Defined.

Lemma pick_below (s n : Z) : (0 < n)%Z -> (0 <= Demo.pick s n < n)%Z.
Proof. intros Hn. unfold Demo.pick. apply Z.mod_pos_bound. exact Hn. Qed.

Lemma sweep_bounded_and_sound_witness :
  exists evs,
    log (world_of (DeleteExpired Demo.inert Demo.pick 201 ["x"; "y"] Demo.two_keys)) =
      evs ++ log Demo.two_keys /\
    (Z.of_nat (visits evs) <= 2)%Z /\
    (forall e kv, Removed e kv ∈ evs -> (0 < Expiration kv)%Z /\ (Expiration kv < 201)%Z) /\
    exists w',
      DeleteExpired Demo.inert Demo.pick 201 ["x"; "y"] Demo.two_keys = Ret tt w' /\
      index (cache (obj w')) "y" = Some 1.
Proof.
  destruct (sweep_bounded_and_sound Demo.inert Demo.pick 201 ["x"; "y"]
              Demo.two_keys pick_below) as (evs & Hlog & Hv & Hst & Hinert).
  exists evs. split; [exact Hlog|].
  split; [exact (Hv 2%Z Demo.two_keys eq_refl)|]. split; [exact Hst|].
  destruct (Hinert (fun f k v c => eq_refl) two_keys_idle)
    as (w' & Heq & _ & _ & Hkeep & _).
  exists w'. split; [exact Heq|].
  destruct (Hkeep 1 (Entry "y" 2%Z 0%Z None) eq_refl eq_refl) as [Hy _].
  - simpl. lia.
  - exact Hy.
Defined.

(** ** The further properties at concrete inputs *)

Lemma inert_quiet : quiet Demo.inert.
Proof. intros f k v c. reflexivity. Qed.

Lemma two_keys_map :
  cache (obj Demo.two_keys) = Some (<["y" := 1]> (<["x" := 0]> ∅)).
Proof. reflexivity. Qed.

Lemma two_keys_entries (k : string) (e : nat) (kv : @entry string Z) :
  index (cache (obj Demo.two_keys)) k = Some e ->
  mem (obj Demo.two_keys) !! e = Some kv ->
  (k = "x" /\ kv = Entry "x" 1%Z 100%Z None) \/
  (k = "y" /\ kv = Entry "y" 2%Z 0%Z None).
Proof.
  rewrite two_keys_map. simpl. intros Hk Hm.
  apply lookup_insert_Some in Hk as [[<- <-]|[_ Hk]].
  - right. split; [reflexivity|]. now injection Hm as <-.
  - apply lookup_insert_Some in Hk as [[<- <-]|[_ Hk]].
    + left. split; [reflexivity|]. now injection Hm as <-.
    + rewrite lookup_empty in Hk. discriminate.
Qed.

Lemma Remove_absent_witness :
  Remove Demo.inert "q" Demo.two_keys = Ret tt Demo.two_keys.
Proof.
  exact (Remove_absent Demo.inert "q" Demo.two_keys eq_refl eq_refl).
Defined.

Lemma Remove_present_witness :
  exists w',
    Remove Demo.inert "x" Demo.two_keys = Ret tt w' /\
    index (cache (obj w')) "x" = None /\
    index (cache (obj w')) "y" = Some 1 /\
    dl (obj w') = Some [1] /\
    Len w' = Ret 1%Z w'.
Proof.
  destruct (Remove_present Demo.inert inert_quiet "x" Demo.two_keys [1; 0] 0
              (Entry "x" 1%Z 100%Z None) two_keys_idle eq_refl eq_refl eq_refl)
    as (w' & Heq & _ & Hgone & Hdl & _ & Hlen & Hothers & _).
  exists w'. split; [exact Heq|]. split; [exact Hgone|].
  split; [rewrite (Hothers "y") by discriminate; reflexivity|].
  split; [exact Hdl|exact Hlen].
Defined.

Lemma RemoveOldest_takes_tail_witness :
  exists w',
    RemoveOldest Demo.inert Demo.two_keys = Ret tt w' /\
    dl (obj w') = Some [1] /\
    index (cache (obj w')) "x" = None.
Proof.
  destruct (RemoveOldest_takes_tail Demo.inert inert_quiet Demo.two_keys
              two_keys_idle) as (_ & _ & Htail).
  destruct (Htail [1] 0 (Entry "x" 1%Z 100%Z None) eq_refl eq_refl)
    as (w' & Heq & _ & Hdl & _ & Hgone & _).
  exists w'. split; [exact Heq|]. split; [exact Hdl|exact Hgone].
Defined.

Lemma Len_counts_keys_witness :
  Len Demo.two_keys = Ret 2%Z Demo.two_keys.
Proof.
  exact (proj1 (Len_counts_keys Demo.two_keys [1; 0]
                  (<["y" := 1]> (<["x" := 0]> ∅))
                  (proj2 two_keys_idle) eq_refl two_keys_map)).
Defined.

Lemma held_mutex_blocks_witness :
  Get 0%Z Demo.inert 0 "x" (World (obj Demo.two_keys) true []) =
    Block (World (obj Demo.two_keys) true []) /\
  add Demo.inert 0 "z" 3%Z 0 None (World (obj Demo.two_keys) true []) =
    Block (World (obj Demo.two_keys) true []).
Proof.
  destruct (held_mutex_blocks 0%Z Demo.inert Demo.pick
              (World (obj Demo.two_keys) true []) [1; 0]
              (<["y" := 1]> (<["x" := 0]> ∅)) 0 "x" 1%Z 0 None []
              eq_refl eq_refl eq_refl) as (_ & HGet & _).
  destruct (held_mutex_blocks 0%Z Demo.inert Demo.pick
              (World (obj Demo.two_keys) true []) [1; 0]
              (<["y" := 1]> (<["x" := 0]> ∅)) 0 "z" 3%Z 0 None []
              eq_refl eq_refl eq_refl) as (Hadd & _).
  split; [exact HGet|exact Hadd].
Defined.

Lemma ttl_in_range : (- 2 ^ 63 <= 0 + 100 < 2 ^ 63)%Z.
Proof. split; [discriminate|reflexivity]. Qed.

Lemma insert_then_Get_witness :
  exists w2,
    Get 0%Z Demo.inert 100 "x" (Demo.one_expiring Demo.inert) = Ret (1%Z, true) w2.
Proof.
  destruct (insert_then_Get 0%Z Demo.inert 0 100 "x" 1%Z 100 (Some 0) (New 2)
              (Demo.one_expiring Demo.inert) (New_idle 2) eq_refl)
    as (w2 & HGet & _).
  - right. split; [exact ttl_in_range|]. change (100 <= 100)%Z. lia.
  - exists w2. exact HGet.
Defined.

Lemma Get_after_ttl_witness :
  exists w2,
    Get 0%Z Demo.inert 101 "x" (Demo.one_expiring Demo.inert) = Ret (0%Z, false) w2 /\
    index (cache (obj w2)) "x" = None /\
    Len w2 = Ret 0%Z w2.
Proof.
  destruct (Get_after_ttl 0%Z Demo.inert inert_quiet 0 101 "x" 1%Z 100 (Some 0)
              (New 2) (Demo.one_expiring Demo.inert) (New_idle 2) eq_refl)
    as (w2 & n & HGet & Hgone & HLen1 & HLen2 & _).
  - reflexivity.
  - exact ttl_in_range.
  - discriminate.
  - reflexivity.
  - exists w2. split; [exact HGet|]. split; [exact Hgone|].
    assert (n = 1%Z) by (injection HLen1 as <-; reflexivity). subst n.
    exact HLen2.
Defined.

Lemma Get_found_is_live_witness :
  exists e kv,
    index (cache (obj (Demo.one_expiring Demo.inert))) "x" = Some e /\
    mem (obj (Demo.one_expiring Demo.inert)) !! e = Some kv /\
    Expired 50 kv = false /\
    1%Z = value kv.
Proof.
  destruct (Get_found_is_live 0%Z Demo.inert inert_quiet 50 "x"
              (Demo.one_expiring Demo.inert)
              (world_of (Get 0%Z Demo.inert 50 "x" (Demo.one_expiring Demo.inert)))
              1%Z (one_expiring_idle Demo.inert) eq_refl)
    as (e & kv & Hk & Hm & Hx & Hv & _).
  exists e, kv. split; [exact Hk|]. split; [exact Hm|]. split; [exact Hx|exact Hv].
Defined.


Lemma operations_keep_idle_witness :
  idle (world_of (Remove Demo.inert "x" Demo.two_keys)) /\
  idle (world_of (Get 0%Z Demo.inert 200 "x" Demo.two_keys)).
Proof.
  destruct (operations_keep_idle 0%Z Demo.inert Demo.pick inert_quiet
              Demo.two_keys two_keys_idle) as (_ & HGet & HRem & _).
  split.
  - exact (HRem "x" _ eq_refl).
  - exact (HGet 200%Z "x" (0%Z, false) _ eq_refl).
Defined.

Lemma only_inserts_add_keys_witness :
  mem (obj (world_of (Get 0%Z Demo.inert 200 "x" Demo.two_keys))) =
    mem (obj Demo.two_keys) /\
  (forall k e,
     index (cache (obj (world_of (Get 0%Z Demo.inert 200 "x" Demo.two_keys)))) k = Some e ->
     index (cache (obj Demo.two_keys)) k = Some e).
Proof.
  destruct (only_inserts_add_keys 0%Z Demo.inert Demo.pick inert_quiet
              Demo.two_keys two_keys_idle
              (world_of (Get 0%Z Demo.inert 200 "x" Demo.two_keys)))
    as (Hsub & Hmem & _).
  - left. exists 200%Z, "x", (0%Z, false). reflexivity.
  - split; [exact Hmem|exact Hsub].
Defined.

Lemma one_expiring_within (cb : fptr -> string -> Z -> @Cache string _ _ Z -> @reply string _ _ Z) :
  within_capacity (obj (Demo.one_expiring cb)).
Proof.
  intros L HL _. change (Some [0] = Some L) in HL. injection HL as <-.
  change (1 <= 2)%Z. lia.
Qed.

Lemma insert_within_capacity_witness :
  exists n1,
    Len (world_of (add Demo.inert 0 "y" 2%Z 0 None (Demo.one_expiring Demo.inert))) =
      Ret n1 (world_of (add Demo.inert 0 "y" 2%Z 0 None (Demo.one_expiring Demo.inert))) /\
    (1 <= n1 <= 2)%Z.
Proof.
  destruct (insert_within_capacity Demo.inert 0 "y" 2%Z 0 None
              (Demo.one_expiring Demo.inert)
              (world_of (add Demo.inert 0 "y" 2%Z 0 None (Demo.one_expiring Demo.inert)))
              (one_expiring_idle Demo.inert))
    as (n1 & HLen & Hle & _).
  - reflexivity.
  - exact (one_expiring_within Demo.inert).
  - reflexivity.
  - exists n1. split; [exact HLen|exact Hle].
Defined.

Lemma New_within (n : Z) : within_capacity (obj (@New string _ _ Z n)).
Proof. intros L [= <-] Hpos. simpl in *. lia. Qed.

Lemma session_runs :
  exec_all 0%Z Demo.inert Demo.pick Demo.session (New 2) = Ret tt Demo.session_end.
Proof. vm_compute. reflexivity. Qed.

Lemma sequences_keep_invariants_witness :
  idle Demo.session_end /\
  within_capacity (obj Demo.session_end) /\
  MaxEntries (obj Demo.session_end) = 2%Z.
Proof.
  destruct (sequences_keep_invariants 0%Z Demo.inert Demo.pick inert_quiet
              Demo.session (New 2) Demo.session_end (New_idle 2) (New_within 2)
              session_runs)
    as (Hidle & Hwithin & Hmax & _).
  split; [exact Hidle|]. split; [exact Hwithin|exact Hmax].
Defined.

Lemma sweep_with_nothing_due_witness :
  exists w',
    DeleteExpired Demo.inert Demo.pick 50 ["x"; "y"] Demo.two_keys = Ret tt w' /\
    obj w' = obj Demo.two_keys.
Proof.
  destruct (sweep_with_nothing_due Demo.inert Demo.pick 50 ["x"; "y"]
              Demo.two_keys two_keys_idle) as (w' & Heq & Hobj & _).
  - intros k e kv Hk Hm.
    destruct (two_keys_entries k e kv Hk Hm) as [[_ ->]|[_ ->]]; simpl; lia.
  - exists w'. split; [exact Heq|exact Hobj].
Defined.

Lemma sweep_with_largest_draw_witness :
  exists w',
    DeleteExpired Demo.inert Demo.pick 201 ["x"; "y"] Demo.two_keys = Ret tt w' /\
    index (cache (obj w')) "y" = Some 1 /\
    forall e kv,
      index (cache (obj w')) "x" = Some e -> mem (obj w') !! e = Some kv ->
      ¬ ((0 < Expiration kv)%Z /\ (Expiration kv < 201)%Z).
Proof.
  destruct (sweep_with_largest_draw Demo.inert Demo.pick inert_quiet 201
              ["x"; "y"] Demo.two_keys [1; 0] (<["y" := 1]> (<["x" := 0]> ∅))
              two_keys_idle eq_refl two_keys_map)
    as (w' & Heq & _ & Hnone & Hkeep).
  - reflexivity.
  - apply NoDup_cons. split; [|apply NoDup_singleton].
    intros Hin. apply list_elem_of_singleton in Hin. discriminate.
  - intros k [e Hk].
    apply lookup_insert_Some in Hk as [[<- _]|[_ Hk]].
    + right. now left.
    + apply lookup_insert_Some in Hk as [[<- _]|[_ Hk]]; [now left|].
      rewrite lookup_empty in Hk. discriminate.
  - exists w'. split; [exact Heq|]. split.
    + apply (Hkeep 1 (Entry "y" 2%Z 0%Z None) eq_refl eq_refl). simpl. lia.
    + intros e kv. apply Hnone.
Defined.
